(** * The node documentation search of chaiNNer

    A shallow embedding of
    [src/renderer/components/NodeDocumentation/NodeDocumentationModal.tsx]:
    the search index builder ([createSearchIndex]), the helper node map
    ([helperNodeMapping]), the search memo that yields the score map and the
    term set ([searchMemo]), the highlight pattern ([highlightRegex]) and the
    effect that selects the highest scoring schema ([autoSelect]).

    Conventions of the embedding.
    - An ECMAScript string is a [string]: a sequence of code units below 256.
    - A score is a finite ECMAScript number, written as the rational it
      denotes; on finite numbers [===], [<=] and [Math.max] are those of the
      rationals.
    - A [Map] and a [Set] keep insertion order, which the code observes when
      it iterates over them, so they are association lists and lists.
    - The MiniSearch library is a parameter: its [search] method is an
      arbitrary function from an index, a query and options to results. *)

From Stdlib Require Import List String Ascii Bool Arith Lia QArith.
Import ListNotations.
Local Close Scope Q_scope.
Local Open Scope bool_scope.
Local Open Scope string_scope.

(* ================================================================= *)
(** ** ECMAScript built-ins used by the component *)

Module JS.

(** [ToBoolean] on a string: only the empty string is falsy. *)
Definition truthy (s : string) : bool := negb (s =? "").

(** The nullish coalescing operator [a ?? b]. *)
Definition nullish {A : Type} (a : option A) (b : A) : A :=
  match a with
  | Some x => x
  | None => b
  end.

(** WhiteSpace and LineTerminator code units below 256:
    TAB, LF, VT, FF, CR, SP and NBSP. *)
Definition isWhiteSpace (c : ascii) : bool :=
  let n := nat_of_ascii c in
  ((9 <=? n)%nat && (n <=? 13)%nat) || (n =? 32)%nat || (n =? 160)%nat.

Fixpoint trimStart (s : string) : string :=
  match s with
  | EmptyString => EmptyString
  | String c r => if isWhiteSpace c then trimStart r else s
  end.

Fixpoint trimEnd (s : string) : string :=
  match s with
  | EmptyString => EmptyString
  | String c r =>
      match trimEnd r with
      | EmptyString => if isWhiteSpace c then EmptyString else String c EmptyString
      | r' => String c r'
      end
  end.

(** [String.prototype.trim]. *)
Definition trim (s : string) : string := trimEnd (trimStart s).

(** Lower case mapping of one code unit below 256: A-Z, and the letters
    of the Latin-1 block except the multiplication sign. *)
Definition toLowerCaseChar (c : ascii) : ascii :=
  let n := nat_of_ascii c in
  if ((65 <=? n)%nat && (n <=? 90)%nat)
     || ((192 <=? n)%nat && (n <=? 222)%nat && negb (n =? 215)%nat)
  then ascii_of_nat (n + 32)
  else c.

(** [String.prototype.toLowerCase] on a string of code units below 256:
    there the mapping goes unit by unit and keeps the length.  A string
    with other code units, where the mapping can change the length or
    leave the range, is outside this model. *)
Fixpoint toLowerCase (s : string) : string :=
  match s with
  | EmptyString => EmptyString
  | String c r => String (toLowerCaseChar c) (toLowerCase r)
  end.

(** [Array.prototype.join] on an array of strings. *)
Definition join (l : list string) (sep : string) : string :=
  String.concat sep l.

(** [Array.prototype.find]. *)
Definition find {A : Type} (l : list A) (p : A -> bool) : option A :=
  List.find p l.

(** [Array.prototype.flatMap]. *)
Definition flatMap {A B : Type} (l : list A) (f : A -> list B) : list B :=
  List.flat_map f l.

(** Strict equality [===] on finite numbers. *)
Definition strictEq (a b : Q) : bool := Qeq_bool a b.

(** [Math.max] of two finite numbers. *)
Definition max2 (a b : Q) : Q := if Qle_bool a b then b else a.

(** [Math.max(...xs)]; [None] stands for [-Infinity], the result on no
    argument. *)
Definition Math_max (xs : list Q) : option Q :=
  match xs with
  | [] => None
  | x :: r => Some (fold_left max2 r x)
  end.

(** [score === highestScore] where the right side may be [-Infinity]. *)
Definition strictEqMax (a : Q) (m : option Q) : bool :=
  match m with
  | Some b => strictEq a b
  | None => false
  end.

(** The line feed written [\n] in a string literal. *)
Definition LF : ascii := ascii_of_nat 10.

End JS.

(* ================================================================= *)
(** ** [Map] with string keys, in insertion order *)

Module JSMap.

Definition t (V : Type) : Type := list (string * V).

Definition empty {V : Type} : t V := [].

Fixpoint get {V : Type} (m : t V) (k : string) : option V :=
  match m with
  | [] => None
  | (k', v) :: r => if k' =? k then Some v else get r k
  end.

Definition has {V : Type} (m : t V) (k : string) : bool :=
  match get m k with
  | Some _ => true
  | None => false
  end.

(** [set] keeps the position of a key that is present and appends a new
    key at the end. *)
Fixpoint set {V : Type} (m : t V) (k : string) (v : V) : t V :=
  match m with
  | [] => [(k, v)]
  | (k', v') :: r => if k' =? k then (k', v) :: r else (k', v') :: set r k v
  end.

Definition size {V : Type} (m : t V) : nat := List.length m.

Definition keys {V : Type} (m : t V) : list string := map fst m.

Definition values {V : Type} (m : t V) : list V := map snd m.

Definition entries {V : Type} (m : t V) : list (string * V) := m.

End JSMap.

(* ================================================================= *)
(** ** [Set] of strings, in insertion order *)

Module JSSet.

Definition t : Type := list string.

Definition has (s : t) (x : string) : bool := existsb (String.eqb x) s.

Definition add (s : t) (x : string) : t := if has s x then s else (s ++ [x])%list.

(** [new Set(iterable)]. *)
Definition ofList (l : list string) : t := fold_left add l [].

(** [[...set]]. *)
Definition toList (s : t) : list string := s.

End JSSet.

(* ================================================================= *)
(** ** Data model *)

(** Modelled from the spec: the [Input] and [Output] types of
    common/common-types, of which the component reads the label and the
    optional description of each entry. *)
Module IO.
Record t : Type := { label : string; description : option string }.
End IO.

(** Modelled from the spec: an entry of [defaultNodes] in
    common/common-types, a helper schema named by its identifier. *)
Module DefaultNode.
Record t : Type := { schemaId : string }.
End DefaultNode.

(** Modelled from the spec: the [NodeSchema] type of common/common-types,
    with the properties the component reads; [defaultNodes] is optional. *)
Record NodeSchema : Type := {
  schemaId : string;
  name : string;
  category : string;
  subcategory : string;
  description : string;
  inputs : list IO.t;
  outputs : list IO.t;
  defaultNodes : option (list DefaultNode.t)
}.

(** The values that [document[fieldName]] can yield. *)
Inductive value : Type :=
| Undefined
| Str (s : string)
| Ports (l : list IO.t)
| Helpers (l : list DefaultNode.t).

(** Property access [document[fieldName]]. *)
Definition property (document : NodeSchema) (fieldName : string) : value :=
  if fieldName =? "schemaId" then Str (schemaId document)
  else if fieldName =? "name" then Str (name document)
  else if fieldName =? "category" then Str (category document)
  else if fieldName =? "subcategory" then Str (subcategory document)
  else if fieldName =? "description" then Str (description document)
  else if fieldName =? "inputs" then Ports (inputs document)
  else if fieldName =? "outputs" then Ports (outputs document)
  else if fieldName =? "defaultNodes" then
         match defaultNodes document with
         | Some l => Helpers l
         | None => Undefined
         end
  else Undefined.

(** [String(v)]: a string is itself, an array is its elements joined by
    commas, a plain object is [[object Object]]. *)
Definition String_ (v : value) : string :=
  match v with
  | Undefined => "undefined"
  | Str s => s
  | Ports l => JS.join (map (fun _ => "[object Object]") l) ","
  | Helpers l => JS.join (map (fun _ => "[object Object]") l) ","
  end.

(** [document[fieldName]] where the code maps over it as a list of inputs
    or outputs. *)
Definition ports (document : NodeSchema) (fieldName : string) : list IO.t :=
  match property document fieldName with
  | Ports l => l
  | _ => []
  end.

(* ================================================================= *)
(** ** The search index *)

(** The separator ['\n\n'] of the synthesized text. *)
Definition blankLine : string := String JS.LF (String JS.LF EmptyString).

(** The template literal [`${i.label} ${i.description ?? ''}`]. *)
Definition entryText (i : IO.t) : string :=
  IO.label i ++ " " ++ JS.nullish (IO.description i) "".

(** The [extractField] option given to MiniSearch. *)
Definition extractField (document : NodeSchema) (fieldName : string) : string :=
  if (fieldName =? "inputs") || (fieldName =? "outputs") then
    JS.join (map entryText (ports document fieldName)) blankLine
  else String_ (property document fieldName).

(** What MiniSearch holds of one document: its identifier and the text of
    each indexed field, both read through [extractField]. *)
Record IndexedDocument : Type := {
  docId : string;
  docText : list (string * string)
}.

Record MiniSearch : Type := {
  idField : string;
  fields : list string;
  documents : list IndexedDocument
}.

(** [index.addAll(schemata)]. *)
Definition addAll (index : MiniSearch) (schemata : list NodeSchema) : MiniSearch :=
  {| idField := idField index;
     fields := fields index;
     documents :=
       (documents index ++
        map (fun d =>
               {| docId := extractField d (idField index);
                  docText := map (fun f => (f, extractField d f)) (fields index) |})
            schemata)%list |}.

Definition createSearchIndex (schemata : list NodeSchema) : MiniSearch :=
  let idField := "schemaId" in
  let fields :=
    ["category"; "description"; "name"; "subcategory"; "inputs"; "outputs"] in
  let index := {| idField := idField; fields := fields; documents := [] |} in
  addAll index schemata.

(** The text the index holds for a field of the document [i]. *)
Definition indexedText (index : MiniSearch) (i : string) (fieldName : string)
  : option string :=
  match List.find (fun d => docId d =? i) (documents index) with
  | Some d => JSMap.get (docText d) fieldName
  | None => None
  end.

Module SearchOptions.
Inductive CombineWith : Type := AND | OR.
Record t : Type := {
  boost : list (string * Q);
  fuzzy : Q;
  prefix : bool;
  combineWith : CombineWith
}.
End SearchOptions.

Module SearchResult.
Record t : Type := { id : string; score : Q; terms : list string }.
End SearchResult.

(** The options of the call [searchIndex.search(searchQuery, ...)]. *)
Definition searchOptions : SearchOptions.t :=
  {| SearchOptions.boost := [("name", 2%Q)];
     SearchOptions.fuzzy := 0.2%Q;
     SearchOptions.prefix := true;
     SearchOptions.combineWith := SearchOptions.AND |}.

(* ================================================================= *)
(** ** The helper node map *)

Definition helperNodeMapping (schemata : list NodeSchema) : JSMap.t string :=
  fold_left
    (fun mapping schema =>
       fold_left
         (fun mapping helper =>
            JSMap.set mapping (DefaultNode.schemaId helper) (schemaId schema))
         (JS.nullish (defaultNodes schema) [])
         mapping)
    schemata JSMap.empty.

(* ================================================================= *)
(** ** The search memo: score map and term set *)

Record SearchMemo : Type := {
  searchScores : option (JSMap.t Q);
  searchTerms : option JSSet.t
}.

(** The set [terms] of the memo. *)
Definition termsOf (searchResults : list SearchResult.t) : JSSet.t :=
  JSSet.ofList
    (map JS.toLowerCase (JS.flatMap searchResults SearchResult.terms)).

(** One turn of the loop over the results: the result's own entry, then
    the entry of the parent of a helper.  The identifier of a result is a
    string, so [String(result.id)] is the identifier itself; the test
    [parent && ...] holds of a parent that is defined and not the empty
    string. *)
Definition scoreStep (helperNodeMapping : JSMap.t string)
  (scores : JSMap.t Q) (result : SearchResult.t) : JSMap.t Q :=
  let id := SearchResult.id result in
  let scores := JSMap.set scores id (SearchResult.score result) in
  match JSMap.get helperNodeMapping id with
  | Some parent =>
      if JS.truthy parent && negb (JSMap.has scores parent)
      then JSMap.set scores parent (SearchResult.score result)
      else scores
  | None => scores
  end.

(** The map [scores] of the memo. *)
Definition scoresOf (helperNodeMapping : JSMap.t string)
  (searchResults : list SearchResult.t) : JSMap.t Q :=
  fold_left (scoreStep helperNodeMapping) searchResults JSMap.empty.

Section Search.

(** The [search] method of the MiniSearch library. *)
Variable search : MiniSearch -> string -> SearchOptions.t -> list SearchResult.t.

Definition searchMemo (searchIndex : MiniSearch) (searchQuery : string)
  (helperNodeMapping : JSMap.t string) : SearchMemo :=
  if negb (JS.truthy (JS.trim searchQuery)) then
    {| searchScores := None; searchTerms := None |}
  else
    let searchResults := search searchIndex searchQuery searchOptions in
    let terms := termsOf searchResults in
    let scores := scoresOf helperNodeMapping searchResults in
    {| searchScores := Some scores; searchTerms := Some terms |}.

End Search.

(* ================================================================= *)
(** ** The highlight pattern *)

(** The SyntaxCharacter class of the pattern grammar. *)
Definition syntaxCharacter (c : ascii) : bool :=
  existsb (Ascii.eqb c) (list_ascii_of_string "^$\.*+?()[]{}|").

(** Modelled from the spec: [escapeRegExp] of common/util, the
    text-escaping utility for building literal-match patterns; each syntax
    character of the text gets a backslash before it. *)
Fixpoint escapeRegExp (s : string) : string :=
  match s with
  | EmptyString => EmptyString
  | String c r =>
      if syntaxCharacter c then String "\" (String c (escapeRegExp r))
      else String c (escapeRegExp r)
  end.

(** A [RegExp] object: the pattern text and the flags. *)
Record RegExp : Type := { source : string; flags : string }.

Definition highlightRegex (searchTerms : option JSSet.t) : option RegExp :=
  match searchTerms with
  | None => None
  | Some terms =>
      Some {| source :=
                "(?:" ++ JS.join (map escapeRegExp (JSSet.toList terms)) "|"
                      ++ ")(?!\w)";
              flags := "ig" |}
  end.

(* ================================================================= *)
(** ** Selecting the highest scoring schema *)

(** A call of the context's [openNodeDocumentation] action. *)
Inductive Call : Type :=
| OpenNodeDocumentation (schemaId : string).

(** The body of the effect, as the calls it makes. *)
Definition autoSelect (searchScores : option (JSMap.t Q))
  (helperNodeMapping : JSMap.t string) : list Call :=
  match searchScores with
  | Some scores =>
      if (0 <? JSMap.size scores)%nat then
        let highestScore := JS.Math_max (JSMap.values scores) in
        let highestScoreSchemaId :=
          option_map fst
            (JS.find (JSMap.entries scores)
                     (fun e => JS.strictEqMax (snd e) highestScore)) in
        match highestScoreSchemaId with
        | Some i =>
            if JS.truthy i then
              [OpenNodeDocumentation (JS.nullish (JSMap.get helperNodeMapping i) i)]
            else []
        | None => []
        end
      else []
  | None => []
  end.

(** Running the calls of an effect against the documentation context, whose
    [openNodeDocumentation] is a transition of the context's state. *)
Definition perform {State : Type}
  (openNodeDocumentation : string -> State -> State)
  (calls : list Call) (st : State) : State :=
  fold_left
    (fun st c => match c with OpenNodeDocumentation i => openNodeDocumentation i st end)
    calls st.

(* ================================================================= *)
(** ** Patterns: the part of the ECMAScript grammar and matching semantics
       that [highlightRegex] reaches *)

Module Pattern.

(** Lexical units of a pattern text. *)
Inductive token : Type :=
| TChar (c : ascii)      (* a pattern character, or an escaped syntax character *)
| TWord                  (* the class escape \w *)
| TGroup                 (* the opening (?: of a non-capturing group *)
| TNegLookahead          (* the opening (?! of a negative lookahead *)
| TClose                 (* ) *)
| TBar.                  (* | *)

Definition cons_token (t : token) (o : option (list token)) : option (list token) :=
  option_map (cons t) o.

(** Splits a pattern text into tokens; [None] on syntax outside the
    fragment (quantifiers, classes, anchors, capturing groups, dot). *)
Fixpoint lex (s : string) : option (list token) :=
  match s with
  | EmptyString => Some []
  | String c r =>
      if Ascii.eqb c "\" then
        match r with
        | String d r' =>
            if Ascii.eqb d "w" then cons_token TWord (lex r')
            else if syntaxCharacter d then cons_token (TChar d) (lex r')
            else None
        | EmptyString => None
        end
      else if Ascii.eqb c "(" then
        match r with
        | String q (String k r') =>
            if Ascii.eqb q "?" && Ascii.eqb k ":" then cons_token TGroup (lex r')
            else if Ascii.eqb q "?" && Ascii.eqb k "!" then cons_token TNegLookahead (lex r')
            else None
        | _ => None
        end
      else if Ascii.eqb c ")" then cons_token TClose (lex r)
      else if Ascii.eqb c "|" then cons_token TBar (lex r)
      else if syntaxCharacter c then None
      else cons_token (TChar c) (lex r)
  end.

(** Abstract syntax: Disjunction, Alternative (a left-nested sequence
    that starts from the empty alternative), atoms and assertions. *)
Inductive regex : Type :=
| Empty
| Char (c : ascii)
| WordClass
| Seq (r1 r2 : regex)
| Disjunction (r1 r2 : regex)
| Group (r : regex)
| NegLookahead (r : regex).

Inductive groupKind : Type := KGroup | KNegLookahead.

Definition wrap (k : groupKind) (r : regex) : regex :=
  match k with
  | KGroup => Group r
  | KNegLookahead => NegLookahead r
  end.

(** [Alternative | Alternative | ... | Alternative], nested to the right
    as the grammar nests it. *)
Fixpoint disjunction (alts : list regex) (last : regex) : regex :=
  match alts with
  | [] => last
  | a :: r => Disjunction a (disjunction r last)
  end.

(** An open group: its kind, and the alternatives and the current
    alternative of the disjunction around it. *)
Definition frame : Type := (groupKind * list regex * regex)%type.

(** Parses the tokens of a disjunction; [alts] are the alternatives that
    are complete, [cur] the alternative being read. *)
Fixpoint parseTokens (ts : list token) (stack : list frame)
  (alts : list regex) (cur : regex) : option regex :=
  match ts with
  | [] =>
      match stack with
      | [] => Some (disjunction alts cur)
      | _ :: _ => None
      end
  | TChar c :: ts' => parseTokens ts' stack alts (Seq cur (Char c))
  | TWord :: ts' => parseTokens ts' stack alts (Seq cur WordClass)
  | TBar :: ts' => parseTokens ts' stack (alts ++ [cur]) Empty
  | TGroup :: ts' => parseTokens ts' ((KGroup, alts, cur) :: stack) [] Empty
  | TNegLookahead :: ts' =>
      parseTokens ts' ((KNegLookahead, alts, cur) :: stack) [] Empty
  | TClose :: ts' =>
      match stack with
      | [] => None
      | (k, alts', cur') :: stack' =>
          parseTokens ts' stack' alts' (Seq cur' (wrap k (disjunction alts cur)))
      end
  end.

Definition parse (s : string) : option regex :=
  match lex s with
  | Some ts => parseTokens ts [] [] Empty
  | None => None
  end.

(** The code unit at index [i] of the input. *)
Definition charAt (input : string) (i : nat) : option ascii := String.get i input.

(** The class \w: letters, digits and the underscore. *)
Definition isWordChar (c : ascii) : bool :=
  let n := nat_of_ascii c in
  ((97 <=? n)%nat && (n <=? 122)%nat) || ((65 <=? n)%nat && (n <=? 90)%nat)
  || ((48 <=? n)%nat && (n <=? 57)%nat) || (n =? 95)%nat.

(** Canonicalize under the flag [i]: the upper case mapping, where a
    code unit whose upper case is not below 256 stands for itself. *)
Definition canonicalize (ignoreCase : bool) (c : ascii) : ascii :=
  if ignoreCase then
    let n := nat_of_ascii c in
    if ((97 <=? n)%nat && (n <=? 122)%nat)
       || ((224 <=? n)%nat && (n <=? 254)%nat && negb (n =? 247)%nat)
    then ascii_of_nat (n - 32)
    else c
  else c.

Definition charMatches (ignoreCase : bool) (c d : ascii) : bool :=
  Ascii.eqb (canonicalize ignoreCase c) (canonicalize ignoreCase d).

(** The matcher of a pattern in continuation style: [k] is what follows
    the pattern, [i] the index in the input; the result is the end index
    of the first match in backtracking order. *)
Fixpoint matcher (ignoreCase : bool) (input : string) (r : regex)
  (k : nat -> option nat) (i : nat) : option nat :=
  match r with
  | Empty => k i
  | Char c =>
      match charAt input i with
      | Some d => if charMatches ignoreCase c d then k (S i) else None
      | None => None
      end
  | WordClass =>
      match charAt input i with
      | Some d => if isWordChar d then k (S i) else None
      | None => None
      end
  | Seq r1 r2 =>
      matcher ignoreCase input r1 (fun j => matcher ignoreCase input r2 k j) i
  | Disjunction r1 r2 =>
      match matcher ignoreCase input r1 k i with
      | Some e => Some e
      | None => matcher ignoreCase input r2 k i
      end
  | Group r1 => matcher ignoreCase input r1 k i
  | NegLookahead r1 =>
      match matcher ignoreCase input r1 (fun j => Some j) i with
      | Some _ => None
      | None => k i
      end
  end.

(** The end of the match that starts at index [i], if there is one. *)
Definition matchAt (ignoreCase : bool) (r : regex) (input : string) (i : nat)
  : option nat :=
  matcher ignoreCase input r (fun j => Some j) i.

(** The first match at or after index [i], scanning [n] start indices:
    its start and its end. *)
Fixpoint scan (ignoreCase : bool) (r : regex) (input : string) (i n : nat)
  : option (nat * nat) :=
  match matchAt ignoreCase r input i with
  | Some e => Some (i, e)
  | None =>
      match n with
      | O => None
      | S n' => scan ignoreCase r input (S i) n'
      end
  end.

End Pattern.

(** Whether the flags of a [RegExp] hold the flag [f]. *)
Definition hasFlag (re : RegExp) (f : ascii) : bool :=
  existsb (Ascii.eqb f) (list_ascii_of_string (flags re)).

(** [re.exec(input)] from the start of the input: the span of the first
    match; [None] when the pattern has no match, or no parse. *)
Definition RegExp_exec (re : RegExp) (input : string) : option (nat * nat) :=
  match Pattern.parse (source re) with
  | Some r => Pattern.scan (hasFlag re "i") r input 0 (String.length input)
  | None => None
  end.

(** The match of [re] that starts at index [i] of the input (the sticky
    match the scan of [exec] tries at each index). *)
Definition RegExp_matchAt (re : RegExp) (input : string) (i : nat) : option nat :=
  match Pattern.parse (source re) with
  | Some r => Pattern.matchAt (hasFlag re "i") r input i
  | None => None
  end.

(** [re.test(input)] from the start of the input. *)
Definition RegExp_test (re : RegExp) (input : string) : bool :=
  match RegExp_exec re input with
  | Some _ => true
  | None => false
  end.

(* ================================================================= *)
(** ** Notions of the specification *)

(** A query that is empty or holds white space only. *)
Definition whitespaceOnly (s : string) : bool :=
  forallb JS.isWhiteSpace (list_ascii_of_string s).

(** The identifiers of a list of results. *)
Definition resultIds (searchResults : list SearchResult.t) : list string :=
  map SearchResult.id searchResults.


(** The identifier is that of a schema of the collection. *)
Definition inCollection (schemata : list NodeSchema) (i : string) : Prop :=
  exists schema, In schema schemata /\ schemaId schema = i.

(** What MiniSearch promises of [search]: a result is a document of the
    index. *)
Definition resultsFromIndex
  (search : MiniSearch -> string -> SearchOptions.t -> list SearchResult.t) : Prop :=
  forall index query options r,
    In r (search index query options) ->
    In (SearchResult.id r) (map docId (documents index)).

(** The text of an entry as the specification words it: the label followed
    by the description, the empty string when there is none. *)
Definition entryTextAsWorded (i : IO.t) : string :=
  IO.label i ++ JS.nullish (IO.description i) "".

(** The text of [inputs] or [outputs] as the specification words it. *)
Definition portsTextAsWorded (l : list IO.t) : string :=
  JS.join (map entryTextAsWorded l) blankLine.

(** The entry [k] is the first of the map with the highest score [s]:
    the entries before it score less, those after it do not score more. *)
Definition firstHighest (scores : JSMap.t Q) (k : string) (s : Q) : Prop :=
  exists pre post,
    scores = (pre ++ (k, s) :: post)%list
    /\ (forall e, In e pre -> (snd e < s)%Q)
    /\ (forall e, In e post -> (snd e <= s)%Q).

(** The identifier to open for [i]: its parent when it is a helper. *)
Definition resolved (helperNodeMapping : JSMap.t string) (i : string) : string :=
  JS.nullish (JSMap.get helperNodeMapping i) i.

(** The input at index [i] starts with the text [t], letter case aside. *)
Fixpoint literalAt (ignoreCase : bool) (t : string) (input : string) (i : nat) : bool :=
  match t with
  | EmptyString => true
  | String c r =>
      match Pattern.charAt input i with
      | Some d => Pattern.charMatches ignoreCase c d && literalAt ignoreCase r input (S i)
      | None => false
      end
  end.

(** The code unit at index [i] of the input is a word character. *)
Definition wordCharAt (input : string) (i : nat) : bool :=
  match Pattern.charAt input i with
  | Some d => Pattern.isWordChar d
  | None => false
  end.

(** The alternatives of the pattern text built from the terms: the terms,
    and the empty text alone when there is no term. *)
Definition alternatives (terms : list string) : list string :=
  match terms with
  | [] => [""]
  | _ :: _ => terms
  end.

(** The first result that [f] yields along a list. *)
Fixpoint firstSome {A B : Type} (f : A -> option B) (l : list A) : option B :=
  match l with
  | [] => None
  | x :: r =>
      match f x with
      | Some y => Some y
      | None => firstSome f r
      end
  end.

(** The end of the match of the alternative [t] at index [i]: the input
    starts with [t] there, letter case aside, and no word character comes
    after it. *)
Definition termMatchAt (t : string) (input : string) (i : nat) : option nat :=
  if literalAt true t input i && negb (wordCharAt input (i + String.length t))
  then Some (i + String.length t)
  else None.

(** The tokens of a text whose characters all stand for themselves. *)
Fixpoint charTokens (t : string) : list Pattern.token :=
  match t with
  | EmptyString => []
  | String c r => Pattern.TChar c :: charTokens r
  end.

(** The tokens of the texts, with a bar between two of them. *)
Fixpoint termTokens (terms : list string) : list Pattern.token :=
  match terms with
  | [] => []
  | t :: r =>
      match r with
      | [] => charTokens t
      | _ :: _ => (charTokens t ++ Pattern.TBar :: termTokens r)%list
      end
  end.

(** The alternative that matches the text [t] after [cur]. *)
Fixpoint literal (t : string) (cur : Pattern.regex) : Pattern.regex :=
  match t with
  | EmptyString => cur
  | String c r => literal r (Pattern.Seq cur (Pattern.Char c))
  end.

(** The disjunction of the literal alternatives of the texts. *)
Fixpoint literals (terms : list string) : Pattern.regex :=
  match terms with
  | [] => Pattern.Empty
  | t :: r =>
      match r with
      | [] => literal t Pattern.Empty
      | _ :: _ => Pattern.Disjunction (literal t Pattern.Empty) (literals r)
      end
  end.

(** The syntax of the pattern that [highlightRegex] builds from the
    terms: the group of the literal alternatives, then the lookahead that
    refuses a word character. *)
Definition highlightPattern (terms : list string) : Pattern.regex :=
  Pattern.Seq
    (Pattern.Seq Pattern.Empty (Pattern.Group (literals terms)))
    (Pattern.NegLookahead (Pattern.Seq Pattern.Empty Pattern.WordClass)).

(* ================================================================= *)
(** ** Sample data *)

Module Sample.

(** Whether the text of the field [fieldName] of a document is the
    query. *)
Definition fieldIs (d : IndexedDocument) (fieldName query : string) : bool :=
  match JSMap.get (docText d) fieldName with
  | Some text => text =? query
  | None => false
  end.

(** A stand-in for MiniSearch: the documents one of whose fields is the
    query, in the order of the index, with the boosted score 2 for a
    match of the name and the score 1 otherwise, and the query as the
    matched term. *)
Definition fieldSearch (index : MiniSearch) (query : string)
  (options : SearchOptions.t) : list SearchResult.t :=
  map (fun d => {| SearchResult.id := docId d;
                   SearchResult.score :=
                     if fieldIs d "name" query
                     then JS.nullish (JSMap.get (SearchOptions.boost options) "name") 1%Q
                     else 1%Q;
                   SearchResult.terms := [query] |})
      (filter (fun d => existsb (fun f => fieldIs d f query) (fields index))
              (documents index)).

Definition blurInput : IO.t :=
  {| IO.label := "Image"; IO.description := Some "The input" |}.

Definition radiusInput : IO.t :=
  {| IO.label := "Radius"; IO.description := None |}.

(** A helper schema. *)
Definition loadHelper : NodeSchema :=
  {| schemaId := "chainner:image:file_iterator_load";
     name := "load";
     category := "image";
     subcategory := "iterator";
     description := "Loads each image";
     inputs := [];
     outputs := [blurInput];
     defaultNodes := None |}.

(** The schema that owns the helper. *)
Definition iterator : NodeSchema :=
  {| schemaId := "chainner:image:file_iterator";
     name := "iterator";
     category := "image";
     subcategory := "Iteration";
     description := "Iterates over a folder";
     inputs := [radiusInput];
     outputs := [];
     defaultNodes :=
       Some [ {| DefaultNode.schemaId := "chainner:image:file_iterator_load" |} ] |}.

Definition blur : NodeSchema :=
  {| schemaId := "chainner:image:blur";
     name := "blur";
     category := "image";
     subcategory := "Blur";
     description := "Blurs an image";
     inputs := [blurInput; radiusInput];
     outputs := [blurInput];
     defaultNodes := None |}.

Definition schemata : list NodeSchema := [iterator; loadHelper; blur].

(** A schema whose identifier is the empty string, with one helper. *)
Definition unnamed : NodeSchema :=
  {| schemaId := "";
     name := "unnamed";
     category := "image";
     subcategory := "Iteration";
     description := "";
     inputs := [];
     outputs := [];
     defaultNodes := Some [ {| DefaultNode.schemaId := "helper" |} ] |}.

Definition helperOfUnnamed : NodeSchema :=
  {| schemaId := "helper";
     name := "load";
     category := "image";
     subcategory := "Iteration";
     description := "";
     inputs := [];
     outputs := [];
     defaultNodes := None |}.

(** The score map {A: 0.9, B: 0.9, C: 0.5}, A set first. *)
Definition abc : JSMap.t Q :=
  JSMap.set (JSMap.set (JSMap.set JSMap.empty "A" 0.9%Q) "B" 0.9%Q) "C" 0.5%Q.

End Sample.

(* ================================================================= *)
(** ** Notions for the helper map and the results *)

(** The identifiers of the helpers that a schema declares in
    [defaultNodes]; none when the property is absent. *)
Definition helperIds (schema : NodeSchema) : list string :=
  map DefaultNode.schemaId (JS.nullish (defaultNodes schema) []).

(** The result is a helper whose parent, by the helper map, is [p]. *)
Definition isHelperOf (helperNodeMapping : JSMap.t string) (p : string)
  (r : SearchResult.t) : bool :=
  match JSMap.get helperNodeMapping (SearchResult.id r) with
  | Some q => q =? p
  | None => false
  end.

(** The entry that a result sets for itself. *)
Definition resultEntry (r : SearchResult.t) : string * Q :=
  (SearchResult.id r, SearchResult.score r).

(** A schema that declares helpers only. *)
Definition ownerOf (i : string) (helpers : list string) : NodeSchema :=
  {| schemaId := i;
     name := i;
     category := "image";
     subcategory := "Iteration";
     description := "";
     inputs := [];
     outputs := [];
     defaultNodes :=
       Some (map (fun h => {| DefaultNode.schemaId := h |}) helpers) |}.

(** The loop of [helperNodeMapping] over the helpers of the schema [i]. *)
Definition helpersLoop (i : string) (helpers : list DefaultNode.t)
  (mapping : JSMap.t string) : JSMap.t string :=
  fold_left
    (fun mapping helper => JSMap.set mapping (DefaultNode.schemaId helper) i)
    helpers mapping.

(** The loop of [helperNodeMapping] over the schemas, from the map
    [mapping] on. *)
Definition schemasLoop (l : list NodeSchema) (mapping : JSMap.t string)
  : JSMap.t string :=
  fold_left
    (fun mapping schema =>
       helpersLoop (schemaId schema) (JS.nullish (defaultNodes schema) []) mapping)
    l mapping.

(* ================================================================= *)
(** ** Notions of letter case *)

(** An upper case letter among the code units below 256: A to Z, and the
    capital letters of the Latin-1 block (192 to 214 and 216 to 222). *)
Definition isUpperCaseLetter (c : ascii) : bool :=
  let n := nat_of_ascii c in
  ((65 <=? n)%nat && (n <=? 90)%nat)
  || ((192 <=? n)%nat && (n <=? 214)%nat)
  || ((216 <=? n)%nat && (n <=? 222)%nat).


(** The code unit [d] is [c] in lower case: the letter 32 code units above
    [c] when [c] is an upper case letter, and [c] itself otherwise. *)
Definition lowerCaseOf (c d : ascii) : bool :=
  if isUpperCaseLetter c
  then (nat_of_ascii d =? nat_of_ascii c + 32)%nat
  else Ascii.eqb d c.


(** The code units [c] and [d] are the same letter, in the same or in
    different case, or the same code unit. *)
Definition sameLetter (c d : ascii) : bool :=
  Ascii.eqb c d || lowerCaseOf c d || lowerCaseOf d c.

(** The texts [s] and [t] differ in the case of letters only. *)
Fixpoint sameLetters (s t : string) : bool :=
  match s, t with
  | EmptyString, EmptyString => true
  | String c s', String d t' => sameLetter c d && sameLetters s' t'
  | _, _ => false
  end.

(* ================================================================= *)
(** * Properties *)

(** ** Strings and white space *)

Lemma trimStart_blank (s : string) :
  whitespaceOnly s = true -> JS.trimStart s = "".
Proof.
  induction s as [|c r IH]; simpl; [reflexivity|].
  unfold whitespaceOnly in *; simpl.
  intros H; apply andb_true_iff in H as [Hc Hr].
  rewrite Hc; auto.
Qed.

Lemma trimStart_head (s : string) :
  JS.trimStart s = ""
  \/ exists c r, JS.trimStart s = String c r /\ JS.isWhiteSpace c = false.
Proof.
  induction s as [|c r IH]; simpl; [now left|].
  destruct (JS.isWhiteSpace c) eqn:Hc; [exact IH|].
  right; exists c, r; split; [reflexivity | exact Hc].
Qed.

Lemma trimStart_not_blank (s : string) :
  JS.trimStart s = "" -> whitespaceOnly s = true.
Proof.
  unfold whitespaceOnly.
  induction s as [|c r IH]; simpl; [reflexivity|].
  destruct (JS.isWhiteSpace c) eqn:Hc; [exact IH | discriminate].
Qed.

Lemma trimEnd_head (c : ascii) (r : string) :
  JS.isWhiteSpace c = false -> JS.trimEnd (String c r) <> "".
Proof.
  intros Hc; simpl.
  destruct (JS.trimEnd r); [rewrite Hc|]; discriminate.
Qed.

(** The trimmed query is the empty string exactly for a query of white
    space only. *)
Lemma trim_truthy (s : string) :
  JS.truthy (JS.trim s) = negb (whitespaceOnly s).
Proof.
  unfold JS.truthy, JS.trim.
  destruct (whitespaceOnly s) eqn:Hb.
  - rewrite (trimStart_blank s Hb); reflexivity.
  - destruct (trimStart_head s) as [He | (c & r & He & Hc)].
    + apply trimStart_not_blank in He; congruence.
    + rewrite He.
      destruct (JS.trimEnd (String c r) =? "") eqn:E; [|reflexivity].
      apply String.eqb_eq in E. now apply trimEnd_head in E.
Qed.

(** ** Maps in insertion order *)

Section MapFacts.

Context {V : Type}.
Implicit Types (m : JSMap.t V) (k : string) (v : V).

Lemma get_set_same m k v : JSMap.get (JSMap.set m k v) k = Some v.
Proof.
  induction m as [|[k' v'] r IH]; simpl.
  - now rewrite String.eqb_refl.
  - destruct (k' =? k) eqn:E; simpl; rewrite E; [reflexivity | exact IH].
Qed.

Lemma get_set_other m k v k' :
  k <> k' -> JSMap.get (JSMap.set m k v) k' = JSMap.get m k'.
Proof.
  intros Hne.
  induction m as [|[k0 v0] r IH]; simpl.
  - apply String.eqb_neq in Hne. now rewrite Hne.
  - destruct (k0 =? k) eqn:E; simpl.
    + apply String.eqb_eq in E; subst k0.
      apply String.eqb_neq in Hne. now rewrite Hne.
    + now rewrite IH.
Qed.

Lemma has_set_same m k v : JSMap.has (JSMap.set m k v) k = true.
Proof. unfold JSMap.has. now rewrite get_set_same. Qed.

Lemma has_set_other m k v k' :
  k <> k' -> JSMap.has (JSMap.set m k v) k' = JSMap.has m k'.
Proof. intros H. unfold JSMap.has. now rewrite get_set_other. Qed.

Lemma In_set m k v (e : string * V) :
  In e (JSMap.set m k v) -> e = (k, v) \/ In e m.
Proof.
  induction m as [|[k0 v0] r IH]; simpl.
  - intros [H | []]; auto.
  - destruct (k0 =? k) eqn:E; simpl.
    + apply String.eqb_eq in E; subst k0.
      intros [H | H]; auto.
    + intros [H | H]; auto.
      destruct (IH H); auto.
Qed.

Lemma In_keys_set m k v x :
  In x (JSMap.keys (JSMap.set m k v)) -> x = k \/ In x (JSMap.keys m).
Proof.
  unfold JSMap.keys. intros H.
  apply in_map_iff in H as ([k0 v0] & <- & H).
  apply In_set in H as [H | H].
  - inversion H; subst; now left.
  - right. apply in_map_iff. now exists (k0, v0).
Qed.

Lemma get_Some_In m k v : JSMap.get m k = Some v -> In (k, v) m.
Proof.
  induction m as [|[k0 v0] r IH]; simpl; [discriminate|].
  destruct (k0 =? k) eqn:E.
  - apply String.eqb_eq in E; subst k0. intros H; inversion H; now left.
  - intros H; right; auto.
Qed.

Lemma set_not_nil m k v : JSMap.set m k v <> [].
Proof.
  destruct m as [|[k0 v0] r]; simpl; [discriminate|].
  destruct (k0 =? k); discriminate.
Qed.

End MapFacts.

(** ** The score map *)

Section ScoreFacts.

Variable helperNodeMapping : JSMap.t string.

Lemma scoresOf_snoc (l : list SearchResult.t) (r : SearchResult.t) :
  scoresOf helperNodeMapping (l ++ [r])
  = scoreStep helperNodeMapping (scoresOf helperNodeMapping l) r.
Proof. unfold scoresOf. now rewrite fold_left_app. Qed.

(** A turn of the loop leaves the result with its own score. *)
Lemma scoreStep_own (scores : JSMap.t Q) (r : SearchResult.t) :
  JSMap.get (scoreStep helperNodeMapping scores r) (SearchResult.id r)
  = Some (SearchResult.score r).
Proof.
  unfold scoreStep.
  destruct (JSMap.get helperNodeMapping (SearchResult.id r)) as [p|];
    [|apply get_set_same].
  destruct (JS.truthy p && negb (JSMap.has _ p)) eqn:E; [|apply get_set_same].
  apply andb_true_iff in E as [_ E]. apply negb_true_iff in E.
  rewrite get_set_other; [apply get_set_same|].
  intros ->. now rewrite has_set_same in E.
Qed.

(** A turn of the loop changes no entry that is present, the result's own
    entry apart. *)
Lemma scoreStep_frame (scores : JSMap.t Q) (r : SearchResult.t) (k : string) :
  k <> SearchResult.id r ->
  JSMap.has scores k = true ->
  JSMap.get (scoreStep helperNodeMapping scores r) k = JSMap.get scores k.
Proof.
  intros Hk Hhas. unfold scoreStep.
  assert (Hid : SearchResult.id r <> k) by congruence.
  destruct (JSMap.get helperNodeMapping (SearchResult.id r)) as [p|];
    [|now apply get_set_other].
  destruct (JS.truthy p && negb (JSMap.has _ p)) eqn:E;
    [|now apply get_set_other].
  apply andb_true_iff in E as [_ E]. apply negb_true_iff in E.
  assert (p <> k).
  { intros ->. rewrite has_set_other in E by exact Hid. congruence. }
  rewrite get_set_other by assumption. now apply get_set_other.
Qed.

Lemma get_has (scores : JSMap.t Q) (k : string) (v : Q) :
  JSMap.get scores k = Some v -> JSMap.has scores k = true.
Proof. unfold JSMap.has. now intros ->. Qed.

(** Where the results hold each identifier once, the score map gives
    every result its own score. *)
Lemma scoresOf_own (l : list SearchResult.t) :
  NoDup (resultIds l) ->
  forall r, In r l ->
    JSMap.get (scoresOf helperNodeMapping l) (SearchResult.id r)
    = Some (SearchResult.score r).
Proof.
  induction l as [|x l IH] using rev_ind; intros Hnd r Hin; [destruct Hin|].
  unfold resultIds in Hnd. rewrite map_app in Hnd. simpl in Hnd.
  apply NoDup_remove in Hnd as [Hnd Hx]. rewrite app_nil_r in Hnd, Hx.
  rewrite scoresOf_snoc.
  apply in_app_or in Hin as [Hin | [<- | []]].
  - rewrite scoreStep_frame.
    + now apply IH.
    + intros E. apply Hx. rewrite <- E. now apply in_map.
    + apply get_has with (v := SearchResult.score r). now apply IH.
  - apply scoreStep_own.
Qed.

(** Whatever the results, the entry of an identifier of the results is
    the score of a result of that identifier. *)
Lemma scoresOf_of_result (l : list SearchResult.t) (i : string) :
  In i (resultIds l) ->
  exists r,
    In r l /\ SearchResult.id r = i
    /\ JSMap.get (scoresOf helperNodeMapping l) i = Some (SearchResult.score r).
Proof.
  induction l as [|x l IH] using rev_ind; [intros []|].
  intros Hin. rewrite scoresOf_snoc.
  destruct (String.eqb (SearchResult.id x) i) eqn:E.
  - apply String.eqb_eq in E. subst i. exists x.
    split; [apply in_or_app; right; now left|].
    split; [reflexivity | apply scoreStep_own].
  - apply String.eqb_neq in E.
    unfold resultIds in Hin. rewrite map_app in Hin.
    apply in_app_or in Hin as [Hin | [Hin | []]]; [|congruence].
    destruct (IH Hin) as (r & Hr & Hid & Hget).
    exists r. split; [apply in_or_app; now left|].
    split; [exact Hid|].
    rewrite scoreStep_frame; [exact Hget | congruence |].
    now apply get_has with (v := SearchResult.score r).
Qed.

(** A key of the map after a turn of the loop is the result, a parent of
    the helper map, or a key that was there. *)
Lemma scoreStep_keys (scores : JSMap.t Q) (r : SearchResult.t) (k : string) :
  In k (JSMap.keys (scoreStep helperNodeMapping scores r)) ->
  k = SearchResult.id r
  \/ (exists h, In (h, k) helperNodeMapping)
  \/ In k (JSMap.keys scores).
Proof.
  unfold scoreStep.
  destruct (JSMap.get helperNodeMapping (SearchResult.id r)) as [p|] eqn:Hp.
  - destruct (JS.truthy p && negb (JSMap.has _ p)).
    + intros H. apply In_keys_set in H as [-> | H].
      * right; left. exists (SearchResult.id r). now apply get_Some_In.
      * apply In_keys_set in H as [H | H]; auto.
    + intros H. apply In_keys_set in H as [H | H]; auto.
  - intros H. apply In_keys_set in H as [H | H]; auto.
Qed.

Lemma scoresOf_keys (l : list SearchResult.t) (k : string) :
  In k (JSMap.keys (scoresOf helperNodeMapping l)) ->
  In k (resultIds l) \/ exists h, In (h, k) helperNodeMapping.
Proof.
  induction l as [|x l IH] using rev_ind; [intros []|].
  rewrite scoresOf_snoc. intros H.
  apply scoreStep_keys in H as [-> | [H | H]].
  - left. unfold resultIds. rewrite map_app. apply in_or_app. right. now left.
  - now right.
  - destruct (IH H) as [H' | H']; [left | now right].
    unfold resultIds. rewrite map_app. apply in_or_app. now left.
Qed.

End ScoreFacts.

(** ** The helper node map and the index *)

Lemma helperNodeMapping_inner (P : string -> Prop) (schema : NodeSchema)
  (helpers : list DefaultNode.t) (mapping : JSMap.t string) :
  P (schemaId schema) ->
  (forall e, In e mapping -> P (snd e)) ->
  forall e,
    In e (fold_left
            (fun mapping helper =>
               JSMap.set mapping (DefaultNode.schemaId helper) (schemaId schema))
            helpers mapping) ->
    P (snd e).
Proof.
  intros HP. revert mapping.
  induction helpers as [|h helpers IH]; simpl; intros mapping Hm e He; [auto|].
  apply (IH _) in He; [exact He|].
  intros e' He'. apply In_set in He' as [-> | He']; auto.
Qed.

(** Every value of the helper map is the identifier of a schema of the
    collection. *)
Lemma helperNodeMapping_values (schemata : list NodeSchema) (h p : string) :
  In (h, p) (helperNodeMapping schemata) -> inCollection schemata p.
Proof.
  unfold helperNodeMapping.
  assert (G : forall l mapping,
             (forall s, In s l -> In s schemata) ->
             (forall e, In e mapping -> inCollection schemata (snd e)) ->
             forall e,
               In e (fold_left
                       (fun mapping schema =>
                          fold_left
                            (fun mapping helper =>
                               JSMap.set mapping (DefaultNode.schemaId helper)
                                 (schemaId schema))
                            (JS.nullish (defaultNodes schema) []) mapping)
                       l mapping) ->
               inCollection schemata (snd e)).
  { induction l as [|s l IH]; simpl; intros mapping Hl Hm e He; [auto|].
    apply IH in He; auto.
    intros e' He'.
    apply (helperNodeMapping_inner (inCollection schemata) s) in He'; auto.
    exists s; auto. }
  intros H. apply (G schemata JSMap.empty) in H; auto.
  intros e [].
Qed.

Lemma createSearchIndex_ids (schemata : list NodeSchema) :
  map docId (documents (createSearchIndex schemata)) = map schemaId schemata.
Proof.
  unfold createSearchIndex, addAll; simpl.
  rewrite map_map. apply map_ext. reflexivity.
Qed.

Lemma fieldSearch_fromIndex : resultsFromIndex Sample.fieldSearch.
Proof.
  intros index query options r H. unfold Sample.fieldSearch in H.
  apply in_map_iff in H as (d & <- & H). simpl.
  apply filter_In in H as [H _]. now apply in_map.
Qed.

(** ** Claims on the score map *)

(** An active search: the memo holds the score map and the term set of the
    results of MiniSearch. *)
Lemma searchMemo_active
  (search : MiniSearch -> string -> SearchOptions.t -> list SearchResult.t)
  (searchIndex : MiniSearch) (searchQuery : string)
  (helperNodeMapping : JSMap.t string) :
  whitespaceOnly searchQuery = false ->
  searchMemo search searchIndex searchQuery helperNodeMapping
  = {| searchScores :=
         Some (scoresOf helperNodeMapping
                 (search searchIndex searchQuery searchOptions));
       searchTerms :=
         Some (termsOf (search searchIndex searchQuery searchOptions)) |}.
Proof.
  intros Hq. unfold searchMemo. rewrite trim_truthy, Hq. reflexivity.
Qed.

(** C1. Where the results of a search hold both a helper and its parent,
    the entry of the parent in the score map of the memo is the score of a
    result of the parent itself, in whichever order the results come; with
    each identifier once in the results, as MiniSearch yields them, it is
    the score of the parent's result (and the helper has its own score);
    and a turn of the loop changes no entry that is already present, the
    result's own entry apart, so the promotion reaches a parent only when
    it has no entry yet. *)
Theorem C1_parent_keeps_own_score :
  forall (search : MiniSearch -> string -> SearchOptions.t -> list SearchResult.t)
         (searchIndex : MiniSearch) (searchQuery : string)
         (helperNodeMapping : JSMap.t string)
         (helper parent : SearchResult.t),
    let searchResults := search searchIndex searchQuery searchOptions in
    whitespaceOnly searchQuery = false ->
    In helper searchResults ->
    In parent searchResults ->
    JSMap.get helperNodeMapping (SearchResult.id helper)
    = Some (SearchResult.id parent) ->
    exists scores,
      searchScores (searchMemo search searchIndex searchQuery helperNodeMapping)
      = Some scores
      /\ (exists own,
             In own searchResults
             /\ SearchResult.id own = SearchResult.id parent
             /\ JSMap.get scores (SearchResult.id parent)
                = Some (SearchResult.score own))
      /\ (NoDup (resultIds searchResults) ->
          JSMap.get scores (SearchResult.id parent)
          = Some (SearchResult.score parent)
          /\ JSMap.get scores (SearchResult.id helper)
             = Some (SearchResult.score helper))
      /\ (forall scores' result k,
             k <> SearchResult.id result ->
             JSMap.has scores' k = true ->
             JSMap.get (scoreStep helperNodeMapping scores' result) k
             = JSMap.get scores' k).
Proof.
  intros search index q hm h p l Hq Hh Hp _.
  rewrite searchMemo_active by exact Hq. simpl.
  exists (scoresOf hm l). split; [reflexivity|].
  split; [|split].
  - apply scoresOf_of_result. unfold resultIds. now apply in_map.
  - intros Hnd. split; now apply scoresOf_own.
  - intros scores' result k. apply scoreStep_frame.
Qed.

(** C3. For a query that is empty or of white space only, the memo holds
    neither a score map nor a term set, the effect makes no call and there
    is no highlight pattern. *)
Theorem C3_blank_query_inactive :
  forall (search : MiniSearch -> string -> SearchOptions.t -> list SearchResult.t)
         (searchIndex : MiniSearch) (searchQuery : string)
         (helperNodeMapping : JSMap.t string),
    whitespaceOnly searchQuery = true ->
    let memo := searchMemo search searchIndex searchQuery helperNodeMapping in
    searchScores memo = None
    /\ searchTerms memo = None
    /\ autoSelect (searchScores memo) helperNodeMapping = []
    /\ highlightRegex (searchTerms memo) = None.
Proof.
  intros search index q hm Hq memo. subst memo.
  unfold searchMemo. rewrite trim_truthy, Hq. simpl. auto.
Qed.

(** C7. Every key of the score map that the search yields over a schema
    collection is the identifier of a schema of that collection, MiniSearch
    returning documents of the index only. *)
Theorem C7_score_keys_in_collection :
  forall (search : MiniSearch -> string -> SearchOptions.t -> list SearchResult.t)
         (schemata : list NodeSchema) (searchQuery : string)
         (scores : JSMap.t Q) (k : string),
    resultsFromIndex search ->
    searchScores
      (searchMemo search (createSearchIndex schemata) searchQuery
         (helperNodeMapping schemata))
    = Some scores ->
    In k (JSMap.keys scores) ->
    inCollection schemata k.
Proof.
  intros search schemata q scores k Hsearch Hmemo Hk.
  destruct (whitespaceOnly q) eqn:Hq.
  - unfold searchMemo in Hmemo. rewrite trim_truthy, Hq in Hmemo. discriminate.
  - rewrite searchMemo_active in Hmemo by exact Hq. simpl in Hmemo.
    injection Hmemo as <-.
    apply scoresOf_keys in Hk as [Hk | [h Hk]].
    + unfold resultIds in Hk. apply in_map_iff in Hk as (r & <- & Hr).
      apply Hsearch in Hr. rewrite createSearchIndex_ids in Hr.
      apply in_map_iff in Hr as (s & Hs & Hin). now exists s.
    + now apply helperNodeMapping_values in Hk.
Qed.

(** C9. On an empty score map the effect makes no call, so the state of
    the documentation context, and with it the selected identifier, stays
    as it was. *)
Theorem C9_empty_scores_no_action :
  forall (scores : JSMap.t Q) (helperNodeMapping : JSMap.t string)
         (State : Type) (openNodeDocumentation : string -> State -> State)
         (st : State),
    JSMap.size scores = 0%nat ->
    autoSelect (Some scores) helperNodeMapping = []
    /\ perform openNodeDocumentation (autoSelect (Some scores) helperNodeMapping) st
       = st.
Proof.
  intros scores hm State open st Hsize.
  assert (H : autoSelect (Some scores) hm = []).
  { unfold autoSelect. now rewrite Hsize. }
  split; [exact H | now rewrite H].
Qed.

(** ** The highest score *)

Lemma max2_cases (a b : Q) : JS.max2 a b = a \/ JS.max2 a b = b.
Proof. unfold JS.max2. destruct (Qle_bool a b); auto. Qed.

Lemma max2_le_l (a b : Q) : (a <= JS.max2 a b)%Q.
Proof.
  unfold JS.max2. destruct (Qle_bool a b) eqn:E.
  - now apply Qle_bool_iff.
  - apply Qle_refl.
Qed.

Lemma max2_le_r (a b : Q) : (b <= JS.max2 a b)%Q.
Proof.
  unfold JS.max2. destruct (Qle_bool a b) eqn:E.
  - apply Qle_refl.
  - destruct (Qlt_le_dec b a) as [H | H].
    + now apply Qlt_le_weak.
    + apply Qle_bool_iff in H. congruence.
Qed.

Lemma fold_max2_ge (r : list Q) (x : Q) :
  (x <= fold_left JS.max2 r x)%Q
  /\ forall y, In y r -> (y <= fold_left JS.max2 r x)%Q.
Proof.
  revert x. induction r as [|a r IH]; intros x; simpl.
  - split; [apply Qle_refl | intros y []].
  - destruct (IH (JS.max2 x a)) as [H1 H2]. split.
    + eapply Qle_trans; [apply max2_le_l | exact H1].
    + intros y [<- | Hy]; [|now apply H2].
      eapply Qle_trans; [apply max2_le_r | exact H1].
Qed.

Lemma fold_max2_In (r : list Q) (x : Q) :
  In (fold_left JS.max2 r x) (x :: r).
Proof.
  revert x. induction r as [|a r IH]; intros x; simpl; [now left|].
  destruct (IH (JS.max2 x a)) as [H | H].
  - destruct (max2_cases x a) as [E | E]; [left | right; left];
      rewrite <- H; now symmetry.
  - auto.
Qed.

(** The highest score is a score of the map and bounds every score. *)
Lemma Math_max_spec (scores : JSMap.t Q) :
  scores <> [] ->
  exists m,
    JS.Math_max (JSMap.values scores) = Some m
    /\ In m (JSMap.values scores)
    /\ forall e, In e scores -> (snd e <= m)%Q.
Proof.
  destruct scores as [|e0 rest]; [congruence|]. intros _.
  exists (fold_left JS.max2 (map snd rest) (snd e0)). simpl.
  split; [reflexivity|]. split.
  - apply (fold_max2_In (map snd rest) (snd e0)).
  - destruct (fold_max2_ge (map snd rest) (snd e0)) as [H1 H2].
    intros e [<- | He]; [exact H1|].
    apply H2. now apply in_map.
Qed.

Lemma find_split {A : Type} (p : A -> bool) (l : list A) (x : A) :
  List.find p l = Some x ->
  exists pre post,
    l = (pre ++ x :: post)%list /\ p x = true /\ forall y, In y pre -> p y = false.
Proof.
  induction l as [|a l IH]; simpl; [discriminate|].
  destruct (p a) eqn:Ha.
  - intros E; injection E as ->.
    exists [], l. repeat split; auto. intros y [].
  - intros E. destruct (IH E) as (pre & post & -> & Hx & Hpre).
    exists (a :: pre), post. repeat split; auto.
    intros y [<- | Hy]; auto.
Qed.

(** What the effect does on a score map that is not empty: it takes the
    first entry with the highest score, and calls the action with the
    resolved identifier unless the identifier is the empty string. *)
Lemma autoSelect_spec (scores : JSMap.t Q) (helperNodeMapping : JSMap.t string) :
  scores <> [] ->
  exists k s,
    firstHighest scores k s
    /\ autoSelect (Some scores) helperNodeMapping
       = if JS.truthy k
         then [OpenNodeDocumentation (resolved helperNodeMapping k)]
         else [].
Proof.
  intros Hne.
  destruct (Math_max_spec scores Hne) as (m & Hm & Hin & Hle).
  unfold autoSelect. rewrite Hm.
  assert (Hsize : (0 <? JSMap.size scores)%nat = true).
  { destruct scores; [congruence | reflexivity]. }
  rewrite Hsize.
  unfold JS.find, JSMap.entries.
  destruct (List.find (fun e => JS.strictEqMax (snd e) (Some m)) scores)
    as [[k s]|] eqn:Hfind.
  - exists k, s. split; [|reflexivity].
    apply find_split in Hfind as (pre & post & -> & Hks & Hpre).
    simpl in Hks. unfold JS.strictEq in Hks. apply Qeq_bool_iff in Hks.
    exists pre, post. split; [reflexivity|]. split.
    + intros e He.
      assert (Hlt : (snd e <= m)%Q) by (apply Hle, in_or_app; now left).
      specialize (Hpre e He). simpl in Hpre. unfold JS.strictEq in Hpre.
      apply Qle_lteq in Hlt as [Hlt | Heq].
      * now rewrite Hks.
      * apply Qeq_bool_iff in Heq. congruence.
    + intros e He. rewrite Hks. apply Hle, in_or_app. right. now right.
  - exfalso.
    unfold JSMap.values in Hin. apply in_map_iff in Hin as (e & He & Hin).
    apply (find_none _ _ Hfind) in Hin. simpl in Hin.
    unfold JS.strictEq in Hin. rewrite He in Hin.
    now rewrite Qeq_bool_refl in Hin.
Qed.

(** C4, as amended. On a score map that is not empty the effect takes the
    first entry, in insertion order, whose score is the highest; when its
    identifier is not the empty string, the effect calls the action once,
    with the parent of the identifier if it is a helper and with the
    identifier itself otherwise.  For the scores {A: 0.9, B: 0.9, C: 0.5},
    A set first and A no helper, the call is made with A. *)
Theorem C4_auto_select_first_highest :
  forall (scores : JSMap.t Q) (helperNodeMapping : JSMap.t string),
    scores <> [] ->
    (exists k s,
        firstHighest scores k s
        /\ (k <> "" ->
            autoSelect (Some scores) helperNodeMapping
            = [OpenNodeDocumentation (resolved helperNodeMapping k)]))
    /\ (JSMap.get helperNodeMapping "A" = None ->
        autoSelect (Some Sample.abc) helperNodeMapping
        = [OpenNodeDocumentation "A"]).
Proof.
  intros scores hm Hne. split.
  - destruct (autoSelect_spec scores hm Hne) as (k & s & Hfirst & Hcall).
    exists k, s. split; [exact Hfirst|].
    intros Hk. rewrite Hcall. unfold JS.truthy.
    apply String.eqb_neq in Hk. now rewrite Hk.
  - intros HA. unfold autoSelect. simpl. now rewrite HA.
Qed.

(** C4 as stated fails: the score map that holds the empty string alone
    is not empty, and the effect makes no call on it. *)
Lemma C4_counterexample :
  JSMap.set JSMap.empty "" 1%Q <> []
  /\ firstHighest (JSMap.set JSMap.empty "" 1%Q) "" 1%Q
  /\ ~ (exists i,
           autoSelect (Some (JSMap.set JSMap.empty "" 1%Q)) JSMap.empty
           = [OpenNodeDocumentation i]).
Proof.
  split; [discriminate|]. split.
  - exists [], []. repeat split; intros e [].
  - intros [i H]. discriminate H.
Qed.

Lemma C4_auto_select_first_highest_witness :
  (exists k s,
      firstHighest Sample.abc k s
      /\ (k <> "" ->
          autoSelect (Some Sample.abc) JSMap.empty
          = [OpenNodeDocumentation (resolved JSMap.empty k)]))
  /\ autoSelect (Some Sample.abc) JSMap.empty = [OpenNodeDocumentation "A"].
Proof.
  destruct (C4_auto_select_first_highest Sample.abc JSMap.empty) as [H1 H2].
  - discriminate.
  - split; [exact H1 | apply H2; reflexivity].
Defined.

(** C2, as amended. Where the search yields one result, a helper, and
    neither its identifier nor the identifier of its parent is the empty
    string, the score map holds the helper and the parent, both with the
    score of the result, and nothing else; and the effect calls the action
    with the parent. *)
Theorem C2_single_helper_result :
  forall (search : MiniSearch -> string -> SearchOptions.t -> list SearchResult.t)
         (searchIndex : MiniSearch) (searchQuery : string)
         (helperNodeMapping : JSMap.t string)
         (result : SearchResult.t) (parent : string),
    whitespaceOnly searchQuery = false ->
    search searchIndex searchQuery searchOptions = [result] ->
    JSMap.get helperNodeMapping (SearchResult.id result) = Some parent ->
    SearchResult.id result <> "" ->
    parent <> "" ->
    exists scores,
      searchScores (searchMemo search searchIndex searchQuery helperNodeMapping)
      = Some scores
      /\ JSMap.get scores (SearchResult.id result) = Some (SearchResult.score result)
      /\ JSMap.get scores parent = Some (SearchResult.score result)
      /\ (forall k, In k (JSMap.keys scores) ->
                    k = SearchResult.id result \/ k = parent)
      /\ autoSelect (Some scores) helperNodeMapping = [OpenNodeDocumentation parent].
Proof.
  intros search index q hm r p Hq Hres Hp Hid Hparent.
  rewrite searchMemo_active by exact Hq. simpl. rewrite Hres.
  eexists; split; [reflexivity|].
  assert (Hself : Qeq_bool (SearchResult.score r) (SearchResult.score r) = true)
    by apply Qeq_bool_refl.
  assert (Htid : JS.truthy (SearchResult.id r) = true).
  { unfold JS.truthy. apply negb_true_iff, String.eqb_neq. exact Hid. }
  assert (Htp : JS.truthy p = true).
  { unfold JS.truthy. apply negb_true_iff, String.eqb_neq. exact Hparent. }
  unfold scoresOf, scoreStep; simpl. rewrite Hp, Htp. simpl.
  unfold JSMap.has; simpl.
  destruct (SearchResult.id r =? p) eqn:E; simpl.
  - apply String.eqb_eq in E. subst p.
    rewrite String.eqb_refl. repeat split; auto.
    + intros k [<- | []]; now left.
    + unfold autoSelect; simpl. unfold JS.strictEq. rewrite Hself. simpl.
      now rewrite Htid, Hp.
  - rewrite String.eqb_refl. rewrite E. rewrite String.eqb_refl.
    repeat split; auto.
    + intros k [<- | [<- | []]]; auto.
    + unfold autoSelect; simpl. unfold JS.strictEq, JS.max2.
      destruct (Qle_bool (SearchResult.score r) (SearchResult.score r));
        rewrite Hself; simpl; now rewrite Htid, Hp.
Qed.

(** C2 as stated fails: the schema whose identifier is the empty string
    owns the helper that the query "load" matches alone, and the score map
    holds no entry for that parent. *)
Lemma C2_counterexample :
  let schemata := [Sample.unnamed; Sample.helperOfUnnamed] in
  let helperNodeMapping := helperNodeMapping schemata in
  let memo :=
    searchMemo Sample.fieldSearch (createSearchIndex schemata) "load"
      helperNodeMapping in
  resultIds (Sample.fieldSearch (createSearchIndex schemata) "load" searchOptions)
  = ["helper"]
  /\ JSMap.get helperNodeMapping "helper" = Some ""
  /\ searchScores memo = Some [("helper", 2%Q)]
  /\ ~ (exists scores,
           searchScores memo = Some scores
           /\ JSMap.has scores "" = true).
Proof.
  cbv zeta. repeat split.
  intros (scores & H & Hhas).
  vm_compute in H. injection H as <-. discriminate Hhas.
Qed.

(** The two orders of C1 on the sample collection: the query "iterator"
    matches the iterator by its name and its helper by its subcategory. *)
Example parent_before_helper :
  searchScores
    (searchMemo Sample.fieldSearch (createSearchIndex Sample.schemata) "iterator"
       (helperNodeMapping Sample.schemata))
  = Some [("chainner:image:file_iterator", 2%Q);
          ("chainner:image:file_iterator_load", 1%Q)].
Proof. reflexivity. Qed.

Example helper_before_parent :
  searchScores
    (searchMemo Sample.fieldSearch (createSearchIndex (rev Sample.schemata))
       "iterator" (helperNodeMapping (rev Sample.schemata)))
  = Some [("chainner:image:file_iterator_load", 1%Q);
          ("chainner:image:file_iterator", 2%Q)].
Proof. reflexivity. Qed.

(** ** The claims at sample inputs *)

Lemma C1_parent_keeps_own_score_witness :
  exists scores,
    searchScores
      (searchMemo Sample.fieldSearch (createSearchIndex (rev Sample.schemata))
         "iterator" (helperNodeMapping Sample.schemata))
    = Some scores
    /\ JSMap.get scores "chainner:image:file_iterator" = Some 2%Q
    /\ JSMap.get scores "chainner:image:file_iterator_load" = Some 1%Q.
Proof.
  destruct (C1_parent_keeps_own_score Sample.fieldSearch
              (createSearchIndex (rev Sample.schemata)) "iterator"
              (helperNodeMapping Sample.schemata)
              {| SearchResult.id := "chainner:image:file_iterator_load";
                 SearchResult.score := 1%Q;
                 SearchResult.terms := ["iterator"] |}
              {| SearchResult.id := "chainner:image:file_iterator";
                 SearchResult.score := 2%Q;
                 SearchResult.terms := ["iterator"] |})
    as (scores & H1 & _ & H2 & _).
  - reflexivity.
  - simpl. auto.
  - simpl. auto.
  - reflexivity.
  - exists scores. split; [exact H1|]. apply H2.
    simpl. repeat constructor; simpl; intuition discriminate.
Defined.

Lemma C2_single_helper_result_witness :
  exists scores,
    searchScores
      (searchMemo Sample.fieldSearch (createSearchIndex Sample.schemata) "load"
         (helperNodeMapping Sample.schemata))
    = Some scores
    /\ JSMap.get scores "chainner:image:file_iterator_load" = Some 2%Q
    /\ JSMap.get scores "chainner:image:file_iterator" = Some 2%Q
    /\ autoSelect (Some scores) (helperNodeMapping Sample.schemata)
       = [OpenNodeDocumentation "chainner:image:file_iterator"].
Proof.
  destruct (C2_single_helper_result Sample.fieldSearch
              (createSearchIndex Sample.schemata) "load"
              (helperNodeMapping Sample.schemata)
              {| SearchResult.id := "chainner:image:file_iterator_load";
                 SearchResult.score := 2%Q;
                 SearchResult.terms := ["load"] |}
              "chainner:image:file_iterator")
    as (scores & H1 & H2 & H3 & _ & H4).
  - reflexivity.
  - reflexivity.
  - reflexivity.
  - discriminate.
  - discriminate.
  - exists scores. auto.
Defined.

Lemma C3_blank_query_inactive_witness :
  let memo :=
    searchMemo Sample.fieldSearch (createSearchIndex Sample.schemata) "  "
      (helperNodeMapping Sample.schemata) in
  searchScores memo = None
  /\ searchTerms memo = None
  /\ autoSelect (searchScores memo) (helperNodeMapping Sample.schemata) = []
  /\ highlightRegex (searchTerms memo) = None.
Proof.
  apply (C3_blank_query_inactive Sample.fieldSearch
           (createSearchIndex Sample.schemata) "  "
           (helperNodeMapping Sample.schemata)).
  reflexivity.
Defined.

Lemma C7_score_keys_in_collection_witness :
  inCollection Sample.schemata "chainner:image:file_iterator".
Proof.
  apply (C7_score_keys_in_collection Sample.fieldSearch Sample.schemata "load"
           [("chainner:image:file_iterator_load", 2%Q);
            ("chainner:image:file_iterator", 2%Q)]).
  - apply fieldSearch_fromIndex.
  - reflexivity.
  - simpl. auto.
Defined.

Lemma C9_empty_scores_no_action_witness :
  autoSelect (Some JSMap.empty) (helperNodeMapping Sample.schemata) = []
  /\ perform (fun i (_ : string) => i)
       (autoSelect (Some JSMap.empty) (helperNodeMapping Sample.schemata))
       "chainner:image:blur"
     = "chainner:image:blur".
Proof.
  apply (C9_empty_scores_no_action JSMap.empty
           (helperNodeMapping Sample.schemata) string (fun i _ => i)
           "chainner:image:blur").
  reflexivity.
Defined.

(** ** The pattern text and its syntax *)

Lemma syntaxCharacter_not_w (c : ascii) :
  syntaxCharacter c = true -> Ascii.eqb c "w" = false.
Proof.
  intros H. destruct (Ascii.eqb c "w") eqn:E; [|reflexivity].
  apply Ascii.eqb_eq in E. subst c. discriminate H.
Qed.

Lemma not_syntaxCharacter (c d : ascii) :
  syntaxCharacter c = false -> syntaxCharacter d = true -> Ascii.eqb c d = false.
Proof.
  intros Hc Hd. destruct (Ascii.eqb c d) eqn:E; [|reflexivity].
  apply Ascii.eqb_eq in E. congruence.
Qed.

Lemma cons_token_map (t : Pattern.token) (ts : list Pattern.token)
  (o : option (list Pattern.token)) :
  Pattern.cons_token t (option_map (app ts) o) = option_map (app (t :: ts)) o.
Proof. destruct o; reflexivity. Qed.

(** An escaped text lexes to its characters, whatever follows it. *)
Lemma lex_escapeRegExp (t rest : string) :
  Pattern.lex (escapeRegExp t ++ rest)
  = option_map (app (charTokens t)) (Pattern.lex rest).
Proof.
  induction t as [|c t IH].
  - simpl. destruct (Pattern.lex rest); reflexivity.
  - cbn [escapeRegExp charTokens].
    destruct (syntaxCharacter c) eqn:Hc.
    + cbn [append Pattern.lex].
      rewrite (syntaxCharacter_not_w c Hc), Hc, IH.
      change (Ascii.eqb "\" "\") with true. cbv iota.
      apply cons_token_map.
    + cbn [append Pattern.lex].
      rewrite (not_syntaxCharacter c "\" Hc eq_refl).
      rewrite (not_syntaxCharacter c "(" Hc eq_refl).
      rewrite (not_syntaxCharacter c ")" Hc eq_refl).
      rewrite (not_syntaxCharacter c "|" Hc eq_refl).
      rewrite Hc, IH. apply cons_token_map.
Qed.

Lemma lex_bar (rest : string) :
  Pattern.lex ("|" ++ rest) = Pattern.cons_token Pattern.TBar (Pattern.lex rest).
Proof. reflexivity. Qed.

Lemma join_cons2 (t t2 : string) (ts : list string) (sep : string) :
  JS.join (t :: t2 :: ts) sep = t ++ sep ++ JS.join (t2 :: ts) sep.
Proof. reflexivity. Qed.

Lemma append_assoc (a b c : string) : (a ++ b) ++ c = a ++ (b ++ c).
Proof. induction a as [|x a IH]; simpl; [reflexivity | now rewrite IH]. Qed.

(** The escaped terms joined by bars lex to the tokens of the terms. *)
Lemma lex_terms (terms : list string) (rest : string) :
  Pattern.lex (JS.join (map escapeRegExp terms) "|" ++ rest)
  = option_map (app (termTokens terms)) (Pattern.lex rest).
Proof.
  induction terms as [|t ts IH].
  - simpl. destruct (Pattern.lex rest); reflexivity.
  - destruct ts as [|t2 ts].
    + simpl. apply lex_escapeRegExp.
    + cbn [map] in *. rewrite join_cons2, !append_assoc.
      rewrite lex_escapeRegExp, lex_bar, IH.
      cbn [termTokens].
      destruct (Pattern.lex rest); simpl; [|reflexivity].
      now rewrite <- app_assoc.
Qed.

Lemma parseTokens_chars (t : string) (ts : list Pattern.token)
  (stack : list Pattern.frame) (alts : list Pattern.regex) (cur : Pattern.regex) :
  Pattern.parseTokens (charTokens t ++ ts) stack alts cur
  = Pattern.parseTokens ts stack alts (literal t cur).
Proof.
  revert cur. induction t as [|c t IH]; intros cur; simpl; [reflexivity|].
  apply IH.
Qed.

Lemma disjunction_snoc (alts : list Pattern.regex) (a last : Pattern.regex) :
  Pattern.disjunction (alts ++ [a]) last
  = Pattern.disjunction alts (Pattern.Disjunction a last).
Proof. induction alts as [|x alts IH]; simpl; [reflexivity | now rewrite IH]. Qed.

(** The tokens of the terms, inside a group, parse to the disjunction of
    their literal alternatives. *)
Lemma parseTokens_terms (terms : list string) (ts : list Pattern.token)
  (k : Pattern.groupKind) (alts' : list Pattern.regex) (cur' : Pattern.regex)
  (stack : list Pattern.frame) (alts : list Pattern.regex) :
  Pattern.parseTokens (termTokens terms ++ Pattern.TClose :: ts)
    ((k, alts', cur') :: stack) alts Pattern.Empty
  = Pattern.parseTokens ts stack alts'
      (Pattern.Seq cur' (Pattern.wrap k (Pattern.disjunction alts (literals terms)))).
Proof.
  revert alts. induction terms as [|t terms IH]; intros alts.
  - reflexivity.
  - destruct terms as [|t2 terms].
    + cbn [termTokens literals]. now rewrite parseTokens_chars.
    + cbn [termTokens literals] in *.
      rewrite <- app_assoc, parseTokens_chars.
      cbn [app Pattern.parseTokens].
      rewrite IH. now rewrite disjunction_snoc.
Qed.

(** The pattern text that [highlightRegex] builds always parses, to the
    syntax [highlightPattern]. *)
Lemma parse_highlight (terms : list string) :
  Pattern.parse
    ("(?:" ++ JS.join (map escapeRegExp (JSSet.toList terms)) "|" ++ ")(?!\w)")
  = Some (highlightPattern terms).
Proof.
  unfold Pattern.parse, JSSet.toList.
  change (Pattern.lex ("(?:" ++ JS.join (map escapeRegExp terms) "|" ++ ")(?!\w)"))
    with (Pattern.cons_token Pattern.TGroup
            (Pattern.lex (JS.join (map escapeRegExp terms) "|" ++ ")(?!\w)"))).
  rewrite lex_terms.
  change (Pattern.lex ")(?!\w)")
    with (Some [Pattern.TClose; Pattern.TNegLookahead; Pattern.TWord; Pattern.TClose]).
  cbn [option_map Pattern.cons_token Pattern.parseTokens].
  rewrite parseTokens_terms. reflexivity.
Qed.

(** ** Matching the highlight pattern *)

Lemma matcher_ext (ignoreCase : bool) (input : string) (r : Pattern.regex) :
  forall (k k' : nat -> option nat) (i : nat),
    (forall j, k j = k' j) ->
    Pattern.matcher ignoreCase input r k i = Pattern.matcher ignoreCase input r k' i.
Proof.
  induction r as [| c | | r1 IH1 r2 IH2 | r1 IH1 r2 IH2 | r1 IH1 | r1 IH1];
    intros k k' i Hk; simpl.
  - apply Hk.
  - destruct (Pattern.charAt input i) as [d|]; [|reflexivity].
    destruct (Pattern.charMatches ignoreCase c d); [apply Hk | reflexivity].
  - destruct (Pattern.charAt input i) as [d|]; [|reflexivity].
    destruct (Pattern.isWordChar d); [apply Hk | reflexivity].
  - apply IH1. intros j. now apply IH2.
  - rewrite (IH1 k k' i Hk), (IH2 k k' i Hk). reflexivity.
  - now apply IH1.
  - destruct (Pattern.matcher ignoreCase input r1 (fun j => Some j) i);
      [reflexivity | apply Hk].
Qed.

(** A literal alternative matches where the input starts with its text. *)
Lemma matcher_literal (ignoreCase : bool) (input : string) (t : string) :
  forall (cur : Pattern.regex) (k : nat -> option nat) (i : nat),
    Pattern.matcher ignoreCase input (literal t cur) k i
    = Pattern.matcher ignoreCase input cur
        (fun j => if literalAt ignoreCase t input j
                  then k (j + String.length t)%nat
                  else None)
        i.
Proof.
  induction t as [|c t IH]; intros cur k i.
  - simpl. apply matcher_ext. intros j. now rewrite Nat.add_0_r.
  - cbn [literal]. rewrite IH. cbn [Pattern.matcher].
    apply matcher_ext. intros j. cbn [literalAt String.length].
    destruct (Pattern.charAt input j) as [d|]; [|reflexivity].
    destruct (Pattern.charMatches ignoreCase c d); [|reflexivity].
    simpl. now rewrite Nat.add_succ_r.
Qed.

(** The disjunction of the literals takes the first alternative, in the
    order of the terms, that matches and lets the rest of the pattern
    match. *)
Lemma matcher_literals (ignoreCase : bool) (input : string) (terms : list string)
  (k : nat -> option nat) (i : nat) :
  Pattern.matcher ignoreCase input (literals terms) k i
  = firstSome
      (fun t => if literalAt ignoreCase t input i
                then k (i + String.length t)%nat
                else None)
      (alternatives terms).
Proof.
  induction terms as [|t terms IH].
  - simpl. rewrite Nat.add_0_r. now destruct (k i).
  - destruct terms as [|t2 terms].
    + cbn [literals alternatives firstSome]. rewrite matcher_literal. simpl.
      now destruct (if literalAt ignoreCase t input i then _ else _).
    + cbn [literals alternatives firstSome Pattern.matcher] in *.
      rewrite matcher_literal, IH. reflexivity.
Qed.

(** The match of the highlight pattern at an index: the first alternative
    that the input starts with there and that no word character follows. *)
Lemma matchAt_highlightPattern (terms : list string) (input : string) (i : nat) :
  Pattern.matchAt true (highlightPattern terms) input i
  = firstSome (fun t => termMatchAt t input i) (alternatives terms).
Proof.
  unfold Pattern.matchAt, highlightPattern. cbn [Pattern.matcher].
  rewrite matcher_literals.
  assert (E : forall l,
             firstSome
               (fun t =>
                  if literalAt true t input i
                  then
                    match
                      match Pattern.charAt input (i + String.length t) with
                      | Some d =>
                          if Pattern.isWordChar d
                          then Some (S (i + String.length t))
                          else None
                      | None => None
                      end
                    with
                    | Some _ => None
                    | None => Some (i + String.length t)%nat
                    end
                  else None) l
             = firstSome (fun t => termMatchAt t input i) l).
  { induction l as [|t l IHl]; [reflexivity|].
    cbn [firstSome]. rewrite IHl.
    unfold termMatchAt, wordCharAt.
    destruct (literalAt true t input i); [|reflexivity].
    destruct (Pattern.charAt input (i + String.length t)) as [d|];
      [destruct (Pattern.isWordChar d)|]; reflexivity. }
  apply E.
Qed.

Lemma firstSome_Some {A B : Type} (f : A -> option B) (l : list A) (y : B) :
  firstSome f l = Some y -> exists x, In x l /\ f x = Some y.
Proof.
  induction l as [|a l IH]; simpl; [discriminate|].
  destruct (f a) as [b|] eqn:E.
  - intros H; injection H as <-. exists a; auto.
  - intros H. destruct (IH H) as (x & Hx & Hf). exists x; auto.
Qed.

Lemma firstSome_None {A B : Type} (f : A -> option B) (l : list A) :
  firstSome f l = None -> forall x, In x l -> f x = None.
Proof.
  induction l as [|a l IH]; simpl; [intros _ x []|].
  destruct (f a) as [b|] eqn:E; [discriminate|].
  intros H x [<- | Hx]; auto.
Qed.

Lemma In_alternatives (terms : list string) (t : string) :
  In t terms -> In t (alternatives terms).
Proof. destruct terms; simpl; auto. Qed.

(** C5. The pattern compiled from a term set has the flag [i]; its text
    parses, and a match of it at an index is a match of one of the
    alternatives, the terms taken literally, letter case aside, with no
    word character after the match; every term that the input holds at an
    index with no word character after it gives a match there.  For the
    term set {"blur"} the pattern has a match in "blur" and in "blur.",
    both times the span of the four letters, and none in "blurry". *)
Theorem C5_highlight_pattern :
  forall (terms : JSSet.t),
    exists re,
      highlightRegex (Some terms) = Some re
      /\ hasFlag re "i" = true
      /\ Pattern.parse (source re) = Some (highlightPattern terms)
      /\ (forall input i e,
             RegExp_matchAt re input i = Some e ->
             exists t,
               In t (alternatives terms)
               /\ e = (i + String.length t)%nat
               /\ literalAt true t input i = true
               /\ wordCharAt input e = false)
      /\ (forall input i t,
             In t terms ->
             literalAt true t input i = true ->
             wordCharAt input (i + String.length t) = false ->
             RegExp_matchAt re input i <> None)
      /\ (forall blurRe,
             highlightRegex (Some ["blur"]) = Some blurRe ->
             RegExp_exec blurRe "blur" = Some (0, 4)%nat
             /\ RegExp_exec blurRe "blur." = Some (0, 4)%nat
             /\ RegExp_exec blurRe "blurry" = None
             /\ RegExp_test blurRe "blurry" = false).
Proof.
  intros terms. eexists. split; [reflexivity|].
  split; [reflexivity|].
  split; [apply parse_highlight|].
  unfold RegExp_matchAt. cbn [source flags].
  rewrite parse_highlight.
  change (hasFlag {| source := _; flags := "ig" |} "i") with true.
  split; [|split].
  - intros input i e H. rewrite matchAt_highlightPattern in H.
    apply firstSome_Some in H as (t & Ht & H).
    exists t. split; [exact Ht|].
    unfold termMatchAt in H.
    destruct (literalAt true t input i) eqn:Hl; [|discriminate].
    destruct (wordCharAt input (i + String.length t)) eqn:Hw; [discriminate|].
    simpl in H. injection H as <-. auto.
  - intros input i t Ht Hl Hw H. rewrite matchAt_highlightPattern in H.
    apply firstSome_None with (x := t) in H; [|now apply In_alternatives].
    unfold termMatchAt in H. rewrite Hl, Hw in H. discriminate.
  - intros blurRe H. injection H as <-. repeat split.
Qed.

(** C10. For a query with a character that is no white space and with no
    result, the memo holds an empty score map and an empty term set, and
    there is a highlight pattern all the same: the text (?:)(?!\w) with the
    flag [i], which matches the empty string at every index that no word
    character follows, and at no other index. *)
Theorem C10_no_result_degenerate_pattern :
  forall (search : MiniSearch -> string -> SearchOptions.t -> list SearchResult.t)
         (searchIndex : MiniSearch) (searchQuery : string)
         (helperNodeMapping : JSMap.t string),
    whitespaceOnly searchQuery = false ->
    search searchIndex searchQuery searchOptions = [] ->
    let memo := searchMemo search searchIndex searchQuery helperNodeMapping in
    searchScores memo = Some JSMap.empty
    /\ searchTerms memo = Some []
    /\ exists re,
        highlightRegex (searchTerms memo) = Some re
        /\ source re = "(?:)(?!\w)"
        /\ hasFlag re "i" = true
        /\ forall input i,
            RegExp_matchAt re input i
            = if wordCharAt input i then None else Some i.
Proof.
  intros search index q hm Hq Hres memo. subst memo.
  rewrite searchMemo_active by exact Hq. rewrite Hres.
  split; [reflexivity|]. split; [reflexivity|].
  exists {| source := "(?:)(?!\w)"; flags := "ig" |}.
  split; [reflexivity|].
  split; [reflexivity|]. split; [reflexivity|].
  intros input i.
  change (RegExp_matchAt {| source := "(?:)(?!\w)"; flags := "ig" |} input i)
    with (Pattern.matchAt true (highlightPattern []) input i).
  rewrite matchAt_highlightPattern.
  cbn [alternatives firstSome]. unfold termMatchAt.
  cbn [literalAt String.length andb]. rewrite Nat.add_0_r.
  now destruct (wordCharAt input i).
Qed.

Lemma C10_no_result_degenerate_pattern_witness :
  let memo :=
    searchMemo Sample.fieldSearch (createSearchIndex Sample.schemata) "sharpen"
      (helperNodeMapping Sample.schemata) in
  searchScores memo = Some JSMap.empty
  /\ searchTerms memo = Some []
  /\ exists re,
      highlightRegex (searchTerms memo) = Some re
      /\ source re = "(?:)(?!\w)"
      /\ hasFlag re "i" = true
      /\ forall input i,
          RegExp_matchAt re input i
          = if wordCharAt input i then None else Some i.
Proof.
  apply (C10_no_result_degenerate_pattern Sample.fieldSearch
           (createSearchIndex Sample.schemata) "sharpen"
           (helperNodeMapping Sample.schemata)).
  - reflexivity.
  - reflexivity.
Defined.

Lemma C5_highlight_pattern_witness :
  exists re,
    highlightRegex (Some ["blur"; "c++"]) = Some re
    /\ RegExp_matchAt re "a Blur." 2 <> None
    /\ RegExp_matchAt re "in C++ code" 3 <> None.
Proof.
  destruct (C5_highlight_pattern ["blur"; "c++"])
    as (re & H1 & _ & _ & _ & H5 & _).
  exists re. split; [exact H1|]. split.
  - apply (H5 "a Blur." 2%nat "blur"); [simpl; auto | reflexivity | reflexivity].
  - apply (H5 "in C++ code" 3%nat "c++"); [simpl; auto | reflexivity | reflexivity].
Defined.

(** ** The indexed text *)

(** C6, as amended. The text indexed for [inputs] and for [outputs] is, for
    each entry in order, the label, one space and the description (the
    empty string when there is none), the texts of the entries joined by two
    line feeds; category, description, name and subcategory are indexed as
    they are; and the index holds these texts for every schema. *)
Theorem C6_indexed_text :
  forall (schemata : list NodeSchema) (document : NodeSchema),
    let text := fun i : IO.t =>
                  IO.label i ++ " " ++
                  match IO.description i with Some d => d | None => "" end in
    extractField document "inputs" = JS.join (map text (inputs document)) blankLine
    /\ extractField document "outputs" = JS.join (map text (outputs document)) blankLine
    /\ extractField document "category" = category document
    /\ extractField document "description" = description document
    /\ extractField document "name" = name document
    /\ extractField document "subcategory" = subcategory document
    /\ documents (createSearchIndex schemata)
       = map (fun d =>
                {| docId := schemaId d;
                   docText :=
                     [("category", category d);
                      ("description", description d);
                      ("name", name d);
                      ("subcategory", subcategory d);
                      ("inputs", JS.join (map text (inputs d)) blankLine);
                      ("outputs", JS.join (map text (outputs d)) blankLine)] |})
             schemata.
Proof.
  intros schemata document text. repeat split.
Qed.

(** C6 as stated fails: the text of an entry holds a space between the
    label and the description, which the label followed by the description
    does not. *)
Lemma C6_counterexample :
  extractField Sample.blur "inputs" <> portsTextAsWorded (inputs Sample.blur)
  /\ indexedText (createSearchIndex Sample.schemata) "chainner:image:blur" "outputs"
     = Some "Image The input"
  /\ portsTextAsWorded (outputs Sample.blur) = "ImageThe input".
Proof.
  split; [|split]; [|reflexivity|reflexivity].
  intros H. vm_compute in H. discriminate H.
Qed.

(** ** The term set *)







Lemma toLowerCaseChar_idempotent (c : ascii) :
  JS.toLowerCaseChar (JS.toLowerCaseChar c) = JS.toLowerCaseChar c.
Proof. destruct c as [[] [] [] [] [] [] [] []]; reflexivity. Qed.

Lemma toLowerCase_idempotent (s : string) :
  JS.toLowerCase (JS.toLowerCase s) = JS.toLowerCase s.
Proof.
  induction s as [|c s IH]; simpl; [reflexivity|].
  now rewrite toLowerCaseChar_idempotent, IH.
Qed.

Lemma toLowerCaseChar_cases (c : ascii) :
  JS.toLowerCaseChar c
  = if isUpperCaseLetter c then ascii_of_nat (nat_of_ascii c + 32) else c.
Proof. destruct c as [[] [] [] [] [] [] [] []]; reflexivity. Qed.

Lemma isUpperCaseLetter_bound (c : ascii) :
  isUpperCaseLetter c = true -> (nat_of_ascii c + 32 < 256)%nat.
Proof.
  unfold isUpperCaseLetter.
  rewrite !orb_true_iff, !andb_true_iff, !Nat.leb_le. lia.
Qed.

(** The relation [lowerCaseOf] holds of the lower case mapping of the
    code, and of nothing else. *)
Lemma lowerCaseOf_iff (c d : ascii) :
  lowerCaseOf c d = true <-> d = JS.toLowerCaseChar c.
Proof.
  rewrite toLowerCaseChar_cases. unfold lowerCaseOf.
  destruct (isUpperCaseLetter c) eqn:Hc.
  - rewrite Nat.eqb_eq. split.
    + intros H. rewrite <- H. symmetry. apply ascii_nat_embedding.
    + intros ->. apply nat_ascii_embedding. now apply isUpperCaseLetter_bound.
  - apply Ascii.eqb_eq.
Qed.







(** * Further properties of the component *)

(** ** The helper node map *)

Section MoreMapFacts.

Context {V : Type}.
Implicit Types (m : JSMap.t V) (k : string) (v : V).

Lemma In_keys_has m k : In k (JSMap.keys m) <-> JSMap.has m k = true.
Proof.
  unfold JSMap.has, JSMap.keys.
  induction m as [|[k0 v0] r IH]; simpl.
  - split; [intros [] | discriminate].
  - destruct (k0 =? k) eqn:E.
    + apply String.eqb_eq in E. split; auto.
    + apply String.eqb_neq in E. rewrite <- IH. split; [|auto].
      intros [H | H]; [congruence | exact H].
Qed.

Lemma keys_set m k v x :
  In x (JSMap.keys (JSMap.set m k v)) <-> x = k \/ In x (JSMap.keys m).
Proof.
  split; [apply In_keys_set|].
  rewrite !In_keys_has.
  destruct (String.eqb k x) eqn:E.
  - apply String.eqb_eq in E. subst x. intros _. apply has_set_same.
  - apply String.eqb_neq in E. rewrite has_set_other by exact E.
    intros [H | H]; [congruence | exact H].
Qed.

(** A key that is new goes to the end of the map. *)
Lemma set_fresh m k v :
  ~ In k (JSMap.keys m) -> JSMap.set m k v = (m ++ [(k, v)])%list.
Proof.
  induction m as [|[k0 v0] r IH]; simpl; [reflexivity|].
  intros H. destruct (k0 =? k) eqn:E.
  - apply String.eqb_eq in E. subst. exfalso. apply H. now left.
  - rewrite IH; [reflexivity|]. intros Hin. apply H. now right.
Qed.

Lemma size_set m k v :
  (JSMap.size m <= JSMap.size (JSMap.set m k v) <= S (JSMap.size m))%nat.
Proof.
  unfold JSMap.size.
  induction m as [|[k0 v0] r IH]; simpl; [lia|].
  destruct (k0 =? k); simpl; lia.
Qed.

End MoreMapFacts.

Section HelperMapFacts.

Lemma helpersLoop_keys (i : string) (helpers : list DefaultNode.t)
  (mapping : JSMap.t string) (h : string) :
  In h (JSMap.keys (helpersLoop i helpers mapping))
  <-> In h (JSMap.keys mapping) \/ In h (map DefaultNode.schemaId helpers).
Proof.
  unfold helpersLoop. revert mapping.
  induction helpers as [|x helpers IH]; intros mapping; simpl.
  - intuition auto.
  - rewrite IH, keys_set. intuition auto.
Qed.

Lemma helpersLoop_other (i : string) (helpers : list DefaultNode.t)
  (mapping : JSMap.t string) (h : string) :
  ~ In h (map DefaultNode.schemaId helpers) ->
  JSMap.get (helpersLoop i helpers mapping) h = JSMap.get mapping h.
Proof.
  unfold helpersLoop. revert mapping.
  induction helpers as [|x helpers IH]; intros mapping Hh; simpl; [reflexivity|].
  simpl in Hh. rewrite IH by tauto.
  apply get_set_other. tauto.
Qed.

Lemma helpersLoop_declared (i : string) (helpers : list DefaultNode.t)
  (mapping : JSMap.t string) (h : string) :
  In h (map DefaultNode.schemaId helpers) ->
  JSMap.get (helpersLoop i helpers mapping) h = Some i.
Proof.
  unfold helpersLoop. revert mapping.
  induction helpers as [|x helpers IH]; intros mapping Hh; simpl; [destruct Hh|].
  destruct (in_dec string_dec h (map DefaultNode.schemaId helpers)) as [Hin | Hout].
  - now apply IH.
  - destruct Hh as [<- | Hh]; [|contradiction].
    fold (helpersLoop i helpers (JSMap.set mapping (DefaultNode.schemaId x) i)).
    rewrite helpersLoop_other by exact Hout. apply get_set_same.
Qed.

Lemma helpersLoop_get (i : string) (helpers : list DefaultNode.t)
  (mapping : JSMap.t string) (h p : string) :
  JSMap.get (helpersLoop i helpers mapping) h = Some p ->
  (p = i /\ In h (map DefaultNode.schemaId helpers))
  \/ JSMap.get mapping h = Some p.
Proof.
  intros H.
  destruct (in_dec string_dec h (map DefaultNode.schemaId helpers)) as [Hin | Hout].
  - left. rewrite helpersLoop_declared in H by exact Hin. split; [congruence | exact Hin].
  - right. now rewrite helpersLoop_other in H.
Qed.

Lemma schemasLoop_keys (l : list NodeSchema) (mapping : JSMap.t string) (h : string) :
  In h (JSMap.keys (schemasLoop l mapping))
  <-> In h (JSMap.keys mapping)
      \/ exists schema, In schema l /\ In h (helperIds schema).
Proof.
  unfold schemasLoop. revert mapping.
  induction l as [|s l IH]; intros mapping; simpl.
  - split; [auto | intros [H | (s & [] & _)]; exact H].
  - rewrite IH.
    fold (helpersLoop (schemaId s) (JS.nullish (defaultNodes s) []) mapping).
    rewrite helpersLoop_keys. fold (helperIds s). split.
    + intros [[H | H] | (s' & Hs' & H)]; eauto.
    + intros [H | (s' & [<- | Hs'] & H)]; eauto.
Qed.

Lemma schemasLoop_get (l : list NodeSchema) (mapping : JSMap.t string) (h p : string) :
  JSMap.get (schemasLoop l mapping) h = Some p ->
  (exists schema, In schema l /\ schemaId schema = p /\ In h (helperIds schema))
  \/ JSMap.get mapping h = Some p.
Proof.
  unfold schemasLoop. revert mapping.
  induction l as [|s l IH]; intros mapping; simpl; [auto|].
  intros H. apply IH in H as [(s' & Hs' & Hp & Hh) | H].
  - left. exists s'. auto.
  - fold (helpersLoop (schemaId s) (JS.nullish (defaultNodes s) []) mapping) in H.
    apply helpersLoop_get in H as [[-> Hh] | H]; [left | now right].
    exists s. auto.
Qed.

Lemma schemasLoop_other (l : list NodeSchema) (mapping : JSMap.t string) (h : string) :
  (forall schema, In schema l -> ~ In h (helperIds schema)) ->
  JSMap.get (schemasLoop l mapping) h = JSMap.get mapping h.
Proof.
  unfold schemasLoop. revert mapping.
  induction l as [|s l IH]; intros mapping Hl; simpl; [reflexivity|].
  rewrite IH by (intros s' Hs'; apply Hl; now right).
  apply helpersLoop_other. apply (Hl s). now left.
Qed.

(** X1. The keys of the helper map are the identifiers that the schemas
    of the collection declare as helpers, and no other: a schema without
    [defaultNodes] adds none. *)
Theorem helperNodeMapping_keys :
  forall (schemata : list NodeSchema) (h : string),
    In h (JSMap.keys (helperNodeMapping schemata))
    <-> exists schema, In schema schemata /\ In h (helperIds schema).
Proof.
  intros schemata h.
  change (helperNodeMapping schemata) with (schemasLoop schemata JSMap.empty).
  rewrite schemasLoop_keys. simpl. intuition auto.
Qed.

(** X2. An entry of the helper map is owed to a declaration: the parent
    that the map gives for a helper is a schema of the collection that
    declares this helper; and a helper that no schema declares has no
    parent. *)
Theorem helperNodeMapping_sound :
  forall (schemata : list NodeSchema) (h : string),
    (forall p,
        JSMap.get (helperNodeMapping schemata) h = Some p ->
        exists schema,
          In schema schemata /\ schemaId schema = p /\ In h (helperIds schema))
    /\ ((forall schema, In schema schemata -> ~ In h (helperIds schema)) ->
        JSMap.get (helperNodeMapping schemata) h = None).
Proof.
  intros schemata h.
  change (helperNodeMapping schemata) with (schemasLoop schemata JSMap.empty).
  split.
  - intros p H. apply schemasLoop_get in H as [H | H]; [exact H | discriminate].
  - intros H. now rewrite schemasLoop_other.
Qed.

(** X3. Where several schemas declare the same helper, the last of them
    in the order of the collection is its parent. *)
Theorem helperNodeMapping_last_owner :
  forall (before after : list NodeSchema) (owner : NodeSchema) (h : string),
    In h (helperIds owner) ->
    (forall schema, In schema after -> ~ In h (helperIds schema)) ->
    JSMap.get (helperNodeMapping (before ++ owner :: after)) h
    = Some (schemaId owner).
Proof.
  intros before after owner h Hh Hafter.
  unfold helperNodeMapping. rewrite fold_left_app. simpl.
  match goal with
  | |- JSMap.get (fold_left _ after ?m) h = _ =>
      change (JSMap.get (schemasLoop after m) h = Some (schemaId owner))
  end.
  rewrite schemasLoop_other by exact Hafter.
  apply (helpersLoop_declared (schemaId owner)). exact Hh.
Qed.

End HelperMapFacts.

Lemma helperNodeMapping_sound_witness :
  JSMap.get (helperNodeMapping Sample.schemata) "chainner:image:blur" = None.
Proof.
  apply (helperNodeMapping_sound Sample.schemata "chainner:image:blur").
  intros schema [<- | [<- | [<- | []]]]; simpl; intuition discriminate.
Defined.

Lemma helperNodeMapping_last_owner_witness :
  JSMap.get
    (helperNodeMapping
       ([ownerOf "first" ["load"; "save"]]
          ++ ownerOf "second" ["load"] :: [ownerOf "third" ["save"]]))
    "load"
  = Some "second".
Proof.
  apply (helperNodeMapping_last_owner
           [ownerOf "first" ["load"; "save"]] [ownerOf "third" ["save"]]
           (ownerOf "second" ["load"]) "load").
  - simpl. auto.
  - intros schema [<- | []]. simpl. intuition discriminate.
Defined.

(** ** The score map of the results *)

Section MoreScoreFacts.

Variable helperNodeMapping : JSMap.t string.

Lemma scoreStep_has (scores : JSMap.t Q) (r : SearchResult.t) (k : string) :
  JSMap.has scores k = true ->
  JSMap.has (scoreStep helperNodeMapping scores r) k = true.
Proof.
  intros H. apply In_keys_has in H. apply In_keys_has.
  unfold scoreStep.
  destruct (JSMap.get helperNodeMapping (SearchResult.id r)) as [p|].
  - destruct (JS.truthy p && negb (JSMap.has _ p)).
    + apply keys_set. right. apply keys_set. now right.
    + apply keys_set. now right.
  - apply keys_set. now right.
Qed.

Lemma scoreStep_has_own (scores : JSMap.t Q) (r : SearchResult.t) :
  JSMap.has (scoreStep helperNodeMapping scores r) (SearchResult.id r) = true.
Proof. unfold JSMap.has. now rewrite scoreStep_own. Qed.

Lemma scoreStep_has_parent (scores : JSMap.t Q) (r : SearchResult.t) (p : string) :
  JSMap.get helperNodeMapping (SearchResult.id r) = Some p ->
  p <> "" ->
  JSMap.has (scoreStep helperNodeMapping scores r) p = true.
Proof.
  intros Hp Hne. unfold scoreStep. rewrite Hp.
  assert (Ht : JS.truthy p = true).
  { unfold JS.truthy. apply negb_true_iff, String.eqb_neq. exact Hne. }
  rewrite Ht. simpl.
  destruct (JSMap.has (JSMap.set scores (SearchResult.id r) (SearchResult.score r)) p)
    eqn:E; simpl; [exact E | apply has_set_same].
Qed.

Lemma scoresOf_has_mono (l : list SearchResult.t) (acc : JSMap.t Q) (k : string) :
  JSMap.has acc k = true ->
  JSMap.has (fold_left (scoreStep helperNodeMapping) l acc) k = true.
Proof.
  revert acc. induction l as [|x l IH]; intros acc H; simpl; [exact H|].
  apply IH. now apply scoreStep_has.
Qed.

(** X4. The iterator nodes of the helper nodes show up: the score map
    holds every result, and the parent of every result that is a helper,
    unless the identifier of the parent is the empty string. *)
Theorem scoresOf_covers :
  forall (searchResults : list SearchResult.t) (r : SearchResult.t),
    In r searchResults ->
    JSMap.has (scoresOf helperNodeMapping searchResults) (SearchResult.id r) = true
    /\ (forall p,
           JSMap.get helperNodeMapping (SearchResult.id r) = Some p ->
           p <> "" ->
           JSMap.has (scoresOf helperNodeMapping searchResults) p = true).
Proof.
  intros l r Hin. apply in_split in Hin as (l1 & l2 & ->).
  unfold scoresOf. rewrite fold_left_app. simpl. split.
  - apply scoresOf_has_mono, scoreStep_has_own.
  - intros p Hp Hne. now apply scoresOf_has_mono, scoreStep_has_parent.
Qed.

Lemma scoreStep_plain (scores : JSMap.t Q) (r : SearchResult.t) :
  JSMap.get helperNodeMapping (SearchResult.id r) = None ->
  scoreStep helperNodeMapping scores r
  = JSMap.set scores (SearchResult.id r) (SearchResult.score r).
Proof. intros H. unfold scoreStep. now rewrite H. Qed.

Lemma scoresOf_plain_from (l : list SearchResult.t) (acc : JSMap.t Q) :
  NoDup (resultIds l) ->
  (forall r, In r l -> ~ In (SearchResult.id r) (JSMap.keys acc)) ->
  (forall r, In r l -> JSMap.get helperNodeMapping (SearchResult.id r) = None) ->
  fold_left (scoreStep helperNodeMapping) l acc = (acc ++ map resultEntry l)%list.
Proof.
  revert acc. induction l as [|x l IH]; intros acc Hnd Hacc Hplain; simpl.
  - now rewrite app_nil_r.
  - unfold resultIds in Hnd. simpl in Hnd. apply NoDup_cons_iff in Hnd as [Hx Hnd].
    rewrite scoreStep_plain by (apply Hplain; now left).
    rewrite set_fresh by (apply Hacc; now left).
    rewrite IH.
    + now rewrite <- app_assoc.
    + exact Hnd.
    + intros r Hr. unfold JSMap.keys. rewrite map_app, in_app_iff. simpl.
      intros [H | [H | []]].
      * apply (Hacc r); [now right | exact H].
      * apply Hx. rewrite H. now apply in_map.
    + intros r Hr. apply Hplain. now right.
Qed.

(** X5. Where no result is a helper, the score map is the results
    themselves, in the order in which MiniSearch yields them, each with
    its score. *)
Theorem scoresOf_without_helpers :
  forall (searchResults : list SearchResult.t),
    NoDup (resultIds searchResults) ->
    (forall r, In r searchResults ->
               JSMap.get helperNodeMapping (SearchResult.id r) = None) ->
    JSMap.entries (scoresOf helperNodeMapping searchResults)
    = map resultEntry searchResults.
Proof.
  intros l Hnd Hplain. unfold scoresOf, JSMap.entries.
  rewrite scoresOf_plain_from; auto.
Qed.

Lemma scoreStep_absent (scores : JSMap.t Q) (r : SearchResult.t) (k : string) :
  k <> SearchResult.id r ->
  isHelperOf helperNodeMapping k r = false ->
  JSMap.get (scoreStep helperNodeMapping scores r) k = JSMap.get scores k.
Proof.
  intros Hk Hh. unfold scoreStep, isHelperOf in *.
  assert (Hid : SearchResult.id r <> k) by congruence.
  destruct (JSMap.get helperNodeMapping (SearchResult.id r)) as [p|];
    [|now apply get_set_other].
  apply String.eqb_neq in Hh.
  destruct (JS.truthy p && negb (JSMap.has _ p)).
  - rewrite get_set_other by exact Hh. now apply get_set_other.
  - now apply get_set_other.
Qed.

Lemma scoreStep_promotes (scores : JSMap.t Q) (r : SearchResult.t) (k : string) :
  k <> "" ->
  k <> SearchResult.id r ->
  isHelperOf helperNodeMapping k r = true ->
  JSMap.get scores k = None ->
  JSMap.get (scoreStep helperNodeMapping scores r) k = Some (SearchResult.score r).
Proof.
  intros Hne Hk Hh Hnone. unfold scoreStep, isHelperOf in *.
  destruct (JSMap.get helperNodeMapping (SearchResult.id r)) as [p|];
    [|discriminate].
  apply String.eqb_eq in Hh. subst p.
  assert (Ht : JS.truthy k = true).
  { unfold JS.truthy. apply negb_true_iff, String.eqb_neq. exact Hne. }
  rewrite Ht. unfold JSMap.has at 1.
  rewrite get_set_other by congruence. rewrite Hnone. simpl.
  apply get_set_same.
Qed.

Lemma scoresOf_promoted_from (l : list SearchResult.t) (acc : JSMap.t Q) (k : string) :
  k <> "" ->
  ~ In k (resultIds l) ->
  JSMap.get (fold_left (scoreStep helperNodeMapping) l acc) k
  = match JSMap.get acc k with
    | Some v => Some v
    | None =>
        option_map SearchResult.score (List.find (isHelperOf helperNodeMapping k) l)
    end.
Proof.
  intros Hne. revert acc.
  induction l as [|x l IH]; intros acc Hk; simpl.
  - now destruct (JSMap.get acc k).
  - simpl in Hk. rewrite IH by tauto.
    assert (Hx : k <> SearchResult.id x) by (intros E; apply Hk; now left).
    destruct (JSMap.get acc k) as [v|] eqn:Hacc.
    + rewrite scoreStep_frame, Hacc; auto.
      unfold JSMap.has. now rewrite Hacc.
    + destruct (isHelperOf helperNodeMapping k x) eqn:Hh.
      * now rewrite scoreStep_promotes.
      * rewrite scoreStep_absent, Hacc; auto.
Qed.

(** X6. An identifier that is not the empty string and that is no result
    itself has, in the score map, the score of the first result that is a
    helper of it, and no entry when no result is a helper of it. *)
Theorem scoresOf_promoted :
  forall (searchResults : list SearchResult.t) (p : string),
    p <> "" ->
    ~ In p (resultIds searchResults) ->
    JSMap.get (scoresOf helperNodeMapping searchResults) p
    = option_map SearchResult.score
        (List.find (isHelperOf helperNodeMapping p) searchResults).
Proof.
  intros l p Hne Hp. unfold scoresOf.
  now rewrite scoresOf_promoted_from.
Qed.

Lemma scoreStep_entries (scores : JSMap.t Q) (r : SearchResult.t)
  (e : string * Q) :
  In e (scoreStep helperNodeMapping scores r) ->
  (snd e = SearchResult.score r
   /\ (fst e = SearchResult.id r
       \/ JSMap.get helperNodeMapping (SearchResult.id r) = Some (fst e)))
  \/ In e scores.
Proof.
  unfold scoreStep.
  destruct (JSMap.get helperNodeMapping (SearchResult.id r)) as [p|].
  - destruct (JS.truthy p && negb (JSMap.has _ p)).
    + intros H. apply In_set in H as [-> | H]; [left; simpl; auto|].
      apply In_set in H as [-> | H]; [left; simpl; auto | now right].
    + intros H. apply In_set in H as [-> | H]; [left; simpl; auto | now right].
  - intros H. apply In_set in H as [-> | H]; [left; simpl; auto | now right].
Qed.

Lemma scoreStep_size (scores : JSMap.t Q) (r : SearchResult.t) :
  (1 <= JSMap.size (scoreStep helperNodeMapping scores r)
   /\ JSMap.size scores <= JSMap.size (scoreStep helperNodeMapping scores r)
      <= 2 + JSMap.size scores)%nat.
Proof.
  unfold scoreStep.
  pose proof (size_set scores (SearchResult.id r) (SearchResult.score r)) as H1.
  assert (H0 : (1 <= JSMap.size
                  (JSMap.set scores (SearchResult.id r) (SearchResult.score r)))%nat).
  { pose proof (@set_not_nil Q scores (SearchResult.id r) (SearchResult.score r)).
    unfold JSMap.size.
    destruct (JSMap.set scores (SearchResult.id r) (SearchResult.score r));
      [congruence | simpl; lia]. }
  destruct (JSMap.get helperNodeMapping (SearchResult.id r)) as [p|]; [|lia].
  destruct (JS.truthy p && negb (JSMap.has _ p)); [|lia].
  pose proof (size_set
                (JSMap.set scores (SearchResult.id r) (SearchResult.score r))
                p (SearchResult.score r)).
  lia.
Qed.

(** X7. Every entry of the score map carries the score of a result, and
    its key is that result or the parent that the helper map gives for that
    result; the map has at least one entry when there is a result, and at
    most two for each result. *)
Theorem scoresOf_entries :
  forall (searchResults : list SearchResult.t),
    (forall k v,
        In (k, v) (JSMap.entries (scoresOf helperNodeMapping searchResults)) ->
        exists r,
          In r searchResults
          /\ v = SearchResult.score r
          /\ (k = SearchResult.id r
              \/ JSMap.get helperNodeMapping (SearchResult.id r) = Some k))
    /\ (JSMap.size (scoresOf helperNodeMapping searchResults)
        <= 2 * List.length searchResults)%nat
    /\ (searchResults <> [] ->
        (1 <= JSMap.size (scoresOf helperNodeMapping searchResults))%nat).
Proof.
  intros l. induction l as [|x l IH] using rev_ind.
  - split; [intros k v []|]. split; [simpl; lia | congruence].
  - destruct IH as (IH1 & IH2 & _). rewrite scoresOf_snoc.
    pose proof (scoreStep_size (scoresOf helperNodeMapping l) x) as Hsize.
    split; [|split].
    + intros k v H. unfold JSMap.entries in H.
      apply scoreStep_entries in H as [[Hv Hk] | H]; simpl in *.
      * exists x. split; [apply in_or_app; right; now left | auto].
      * destruct (IH1 k v H) as (r & Hr & Hrest).
        exists r. split; [apply in_or_app; now left | exact Hrest].
    + rewrite length_app. simpl. lia.
    + intros _. lia.
Qed.

End MoreScoreFacts.

Lemma scoresOf_covers_witness :
  JSMap.has
    (scoresOf (helperNodeMapping Sample.schemata)
       (Sample.fieldSearch (createSearchIndex Sample.schemata) "load" searchOptions))
    "chainner:image:file_iterator"
  = true.
Proof.
  apply (scoresOf_covers (helperNodeMapping Sample.schemata)
           (Sample.fieldSearch (createSearchIndex Sample.schemata) "load"
              searchOptions)
           {| SearchResult.id := "chainner:image:file_iterator_load";
              SearchResult.score := 2%Q;
              SearchResult.terms := ["load"] |}).
  - simpl. auto.
  - reflexivity.
  - discriminate.
Defined.

Lemma scoresOf_without_helpers_witness :
  JSMap.entries
    (scoresOf (helperNodeMapping [Sample.iterator; Sample.blur])
       (Sample.fieldSearch (createSearchIndex [Sample.iterator; Sample.blur])
          "image" searchOptions))
  = [("chainner:image:file_iterator", 1%Q); ("chainner:image:blur", 1%Q)].
Proof.
  apply (scoresOf_without_helpers
           (helperNodeMapping [Sample.iterator; Sample.blur])
           (Sample.fieldSearch (createSearchIndex [Sample.iterator; Sample.blur])
              "image" searchOptions)).
  - simpl. repeat constructor; simpl; intuition discriminate.
  - intros r [<- | [<- | []]]; reflexivity.
Defined.

Lemma scoresOf_promoted_witness :
  JSMap.get
    (scoresOf (helperNodeMapping Sample.schemata)
       (Sample.fieldSearch (createSearchIndex Sample.schemata) "load" searchOptions))
    "chainner:image:file_iterator"
  = Some 2%Q.
Proof.
  apply (scoresOf_promoted (helperNodeMapping Sample.schemata)
           (Sample.fieldSearch (createSearchIndex Sample.schemata) "load"
              searchOptions)
           "chainner:image:file_iterator").
  - discriminate.
  - simpl. intuition discriminate.
Defined.

Lemma scoresOf_entries_witness :
  (1 <= JSMap.size
          (scoresOf (helperNodeMapping Sample.schemata)
             (Sample.fieldSearch (createSearchIndex Sample.schemata) "load"
                searchOptions)))%nat.
Proof.
  apply (scoresOf_entries (helperNodeMapping Sample.schemata)
           (Sample.fieldSearch (createSearchIndex Sample.schemata) "load"
              searchOptions)).
  discriminate.
Defined.

(** ** The effect on the score map of a search *)

Lemma scoreStep_head (helperNodeMapping : JSMap.t string) (k0 : string) (v0 : Q)
  (m : JSMap.t Q) (r : SearchResult.t) :
  exists v1 m1, scoreStep helperNodeMapping ((k0, v0) :: m) r = (k0, v1) :: m1.
Proof.
  assert (Hset : forall (m' : JSMap.t Q) a b k v,
             exists v1 m1, JSMap.set ((a, b) :: m') k v = (a, v1) :: m1).
  { intros m' a b k v. simpl. destruct (a =? k); eauto. }
  unfold scoreStep.
  destruct (Hset m k0 v0 (SearchResult.id r) (SearchResult.score r))
    as (v1 & m1 & E).
  rewrite E.
  destruct (JSMap.get helperNodeMapping (SearchResult.id r)) as [p|]; [|eauto].
  destruct (JS.truthy p && negb (JSMap.has _ p)); [|eauto].
  apply Hset.
Qed.

Lemma scoresOf_head_from (helperNodeMapping : JSMap.t string)
  (l : list SearchResult.t) (k0 : string) (v0 : Q) (m : JSMap.t Q) :
  exists v1 m1,
    fold_left (scoreStep helperNodeMapping) l ((k0, v0) :: m) = (k0, v1) :: m1.
Proof.
  revert v0 m. induction l as [|x l IH]; intros v0 m; simpl; [eauto|].
  destruct (scoreStep_head helperNodeMapping k0 v0 m x) as (v1 & m1 & E).
  rewrite E. apply IH.
Qed.

(** The first entry of the score map is that of the first result. *)
Lemma scoresOf_head (helperNodeMapping : JSMap.t string)
  (top : SearchResult.t) (rest : list SearchResult.t) :
  exists v m,
    scoresOf helperNodeMapping (top :: rest) = (SearchResult.id top, v) :: m.
Proof.
  unfold scoresOf. simpl.
  assert (H : exists v1 m1,
             scoreStep helperNodeMapping JSMap.empty top
             = (SearchResult.id top, v1) :: m1).
  { unfold scoreStep. simpl.
    destruct (JSMap.get helperNodeMapping (SearchResult.id top)) as [p|]; [|eauto].
    destruct (JS.truthy p && negb (JSMap.has _ p)); [|eauto].
    simpl. destruct (SearchResult.id top =? p); eauto. }
  destruct H as (v1 & m1 & E). rewrite E. apply scoresOf_head_from.
Qed.

(** X8. Where MiniSearch yields its results with the best score first,
    each identifier once, the effect opens the first result, or its parent
    when it is a helper, whatever the helpers among the other results,
    provided the identifier of the first result is not the empty string. *)
Theorem autoSelect_top_result :
  forall (helperNodeMapping : JSMap.t string)
         (top : SearchResult.t) (rest : list SearchResult.t),
    NoDup (resultIds (top :: rest)) ->
    (forall r, In r rest -> (SearchResult.score r <= SearchResult.score top)%Q) ->
    SearchResult.id top <> "" ->
    autoSelect (Some (scoresOf helperNodeMapping (top :: rest))) helperNodeMapping
    = [OpenNodeDocumentation (resolved helperNodeMapping (SearchResult.id top))].
Proof.
  intros hm top rest Hnd Hbest Hid.
  destruct (scoresOf_head hm top rest) as (v & m & E).
  assert (Hown : JSMap.get (scoresOf hm (top :: rest)) (SearchResult.id top)
                 = Some (SearchResult.score top)).
  { apply scoresOf_own; [exact Hnd | now left]. }
  rewrite E in Hown. simpl in Hown. rewrite String.eqb_refl in Hown.
  injection Hown as ->.
  assert (Hne : scoresOf hm (top :: rest) <> []) by (rewrite E; discriminate).
  destruct (Math_max_spec _ Hne) as (mx & Hmax & Hin & Hle).
  assert (Hbound : (mx <= SearchResult.score top)%Q).
  { unfold JSMap.values in Hin. apply in_map_iff in Hin as ([k w] & <- & Hin).
    destruct (scoresOf_entries hm (top :: rest)) as (Hprov & _).
    destruct (Hprov k w Hin) as (r & [<- | Hr] & -> & _); simpl.
    - apply Qle_refl.
    - now apply Hbest. }
  assert (Heq : Qeq_bool (SearchResult.score top) mx = true).
  { apply Qeq_bool_iff, Qle_antisym; [|exact Hbound].
    apply (Hle (SearchResult.id top, SearchResult.score top)).
    rewrite E. now left. }
  unfold autoSelect. rewrite Hmax. rewrite E.
  cbn [JSMap.size List.length Nat.ltb Nat.leb JSMap.entries JS.find List.find
       snd JS.strictEqMax].
  unfold JS.strictEq. rewrite Heq. cbn [option_map fst].
  unfold JS.truthy. apply String.eqb_neq in Hid. rewrite Hid. reflexivity.
Qed.

Lemma autoSelect_top_result_witness :
  autoSelect
    (Some (scoresOf (helperNodeMapping Sample.schemata)
             (Sample.fieldSearch (createSearchIndex Sample.schemata) "iterator"
                searchOptions)))
    (helperNodeMapping Sample.schemata)
  = [OpenNodeDocumentation "chainner:image:file_iterator"].
Proof.
  refine (autoSelect_top_result (helperNodeMapping Sample.schemata)
            {| SearchResult.id := "chainner:image:file_iterator";
               SearchResult.score := 2%Q;
               SearchResult.terms := ["iterator"] |}
            [ {| SearchResult.id := "chainner:image:file_iterator_load";
                 SearchResult.score := 1%Q;
                 SearchResult.terms := ["iterator"] |} ]
            _ _ _).
  - simpl. repeat constructor; simpl; intuition discriminate.
  - intros r [<- | []]. simpl. discriminate.
  - discriminate.
Defined.

(** A call of the effect is made for a key of the score map that is not
    the empty string, resolved through the helper map. *)
Lemma autoSelect_call (scores : JSMap.t Q) (helperNodeMapping : JSMap.t string)
  (i : string) :
  In (OpenNodeDocumentation i) (autoSelect (Some scores) helperNodeMapping) ->
  exists k,
    In k (JSMap.keys scores) /\ k <> "" /\ i = resolved helperNodeMapping k.
Proof.
  unfold autoSelect.
  destruct (0 <? JSMap.size scores)%nat; [|intros []].
  unfold JS.find, JSMap.entries.
  destruct (List.find _ scores) as [[k s]|] eqn:Hfind; simpl; [|intros []].
  destruct (JS.truthy k) eqn:Hk; [|intros []].
  intros [H | []]. injection H as <-.
  exists k. split; [|split; [|reflexivity]].
  - apply find_some in Hfind as [Hin _].
    unfold JSMap.keys. apply in_map_iff. now exists (k, s).
  - unfold JS.truthy in Hk. apply negb_true_iff in Hk.
    now apply String.eqb_neq.
Qed.

(** X9. Whatever the query, the schema that the effect opens after a
    search over a collection is a schema of that collection, MiniSearch
    returning documents of the index only. *)
Theorem autoSelect_in_collection :
  forall (search : MiniSearch -> string -> SearchOptions.t -> list SearchResult.t)
         (schemata : list NodeSchema) (searchQuery : string) (i : string),
    resultsFromIndex search ->
    In (OpenNodeDocumentation i)
       (autoSelect
          (searchScores
             (searchMemo search (createSearchIndex schemata) searchQuery
                (helperNodeMapping schemata)))
          (helperNodeMapping schemata)) ->
    inCollection schemata i.
Proof.
  intros search schemata q i Hsearch Hcall.
  destruct (whitespaceOnly q) eqn:Hq.
  - unfold searchMemo in Hcall. rewrite trim_truthy, Hq in Hcall.
    destruct Hcall.
  - rewrite searchMemo_active in Hcall by exact Hq. cbn [searchScores] in Hcall.
    apply autoSelect_call in Hcall as (k & Hk & _ & ->).
    unfold resolved.
    destruct (JSMap.get (helperNodeMapping schemata) k) as [p|] eqn:Hp; simpl.
    + apply get_Some_In in Hp. now apply helperNodeMapping_values in Hp.
    + apply scoresOf_keys in Hk as [Hk | [h Hk]].
      * unfold resultIds in Hk. apply in_map_iff in Hk as (r & <- & Hr).
        apply Hsearch in Hr. rewrite createSearchIndex_ids in Hr.
        apply in_map_iff in Hr as (s & Hs & Hin). now exists s.
      * now apply helperNodeMapping_values in Hk.
Qed.

Lemma autoSelect_in_collection_witness :
  inCollection Sample.schemata "chainner:image:file_iterator".
Proof.
  apply (autoSelect_in_collection Sample.fieldSearch Sample.schemata "load").
  - apply fieldSearch_fromIndex.
  - simpl. now left.
Defined.

Lemma forallb_false_exists {A : Type} (f : A -> bool) (l : list A) :
  forallb f l = false <-> exists x, In x l /\ f x = false.
Proof.
  induction l as [|a l IH]; simpl.
  - split; [discriminate | intros (x & [] & _)].
  - rewrite andb_false_iff, IH. split.
    + intros [H | (x & Hx & H)]; eauto.
    + intros (x & [<- | Hx] & H); eauto.
Qed.

(** X10. The search runs exactly for a query that holds a character that
    is no white space, wherever in the query it stands; the score map, the
    term set and the highlight pattern are then all three present, and
    otherwise all three absent. *)
Theorem searchMemo_active_iff :
  forall (search : MiniSearch -> string -> SearchOptions.t -> list SearchResult.t)
         (searchIndex : MiniSearch) (searchQuery : string)
         (helperNodeMapping : JSMap.t string),
    let memo := searchMemo search searchIndex searchQuery helperNodeMapping in
    (searchScores memo <> None
     <-> exists c,
          In c (list_ascii_of_string searchQuery) /\ JS.isWhiteSpace c = false)
    /\ (searchTerms memo <> None <-> searchScores memo <> None)
    /\ (highlightRegex (searchTerms memo) <> None <-> searchScores memo <> None).
Proof.
  intros search index q hm memo. subst memo.
  rewrite <- (forallb_false_exists JS.isWhiteSpace (list_ascii_of_string q)).
  fold (whitespaceOnly q).
  destruct (whitespaceOnly q) eqn:Hq.
  - unfold searchMemo. rewrite trim_truthy, Hq. simpl.
    repeat split; intros H; try congruence; now destruct H.
  - rewrite searchMemo_active by exact Hq. simpl.
    repeat split; intros _; congruence.
Qed.

(** ** The spans of the highlight pattern *)

(** The [RegExp] that [highlightRegex] builds from a term set. *)
Lemma highlightRegex_Some (terms : JSSet.t) (re : RegExp) :
  highlightRegex (Some terms) = Some re ->
  re = {| source :=
            "(?:" ++ JS.join (map escapeRegExp (JSSet.toList terms)) "|"
                  ++ ")(?!\w)";
          flags := "ig" |}.
Proof. unfold highlightRegex. congruence. Qed.

(** The match of the pattern of [highlightRegex] at an index. *)
Lemma RegExp_matchAt_highlight (terms : JSSet.t) (re : RegExp)
  (input : string) (i : nat) :
  highlightRegex (Some terms) = Some re ->
  RegExp_matchAt re input i
  = firstSome (fun t => termMatchAt t input i) (alternatives terms).
Proof.
  intros H. apply highlightRegex_Some in H. subst re.
  unfold RegExp_matchAt. cbn [source flags].
  rewrite parse_highlight.
  change (hasFlag {| source := _; flags := "ig" |} "i") with true.
  apply matchAt_highlightPattern.
Qed.

Lemma RegExp_exec_highlight (terms : JSSet.t) (re : RegExp) (input : string) :
  highlightRegex (Some terms) = Some re ->
  RegExp_exec re input
  = Pattern.scan true (highlightPattern terms) input 0 (String.length input).
Proof.
  intros H. apply highlightRegex_Some in H. subst re.
  unfold RegExp_exec. cbn [source flags].
  rewrite parse_highlight.
  change (hasFlag {| source := _; flags := "ig" |} "i") with true.
  reflexivity.
Qed.

Lemma firstSome_None_iff {A B : Type} (f : A -> option B) (l : list A) :
  firstSome f l = None <-> forall x, In x l -> f x = None.
Proof.
  split; [apply firstSome_None|].
  induction l as [|a l IH]; simpl; [reflexivity|].
  intros H. rewrite (H a) by now left. apply IH. intros x Hx. apply H. now right.
Qed.

(** The scan yields the leftmost index with a match. *)
Lemma scan_Some (r : Pattern.regex) (input : string) (n i s e : nat) :
  Pattern.scan true r input i n = Some (s, e) ->
  (i <= s <= i + n)%nat
  /\ Pattern.matchAt true r input s = Some e
  /\ forall j, (i <= j < s)%nat -> Pattern.matchAt true r input j = None.
Proof.
  revert i. induction n as [|n IH]; intros i; simpl.
  - destruct (Pattern.matchAt true r input i) as [e'|] eqn:E; [|discriminate].
    intros H. injection H as <- <-. repeat split; try lia; auto; intros j Hj; lia.
  - destruct (Pattern.matchAt true r input i) as [e'|] eqn:E.
    + intros H. injection H as <- <-. repeat split; try lia; auto; intros j Hj; lia.
    + intros H. apply IH in H as (Hs & Hm & Hleft).
      repeat split; try lia; auto.
      intros j Hj. destruct (Nat.eq_dec j i) as [-> | Hne]; [exact E|].
      apply Hleft. lia.
Qed.

Lemma scan_None (r : Pattern.regex) (input : string) (n i : nat) :
  Pattern.scan true r input i n = None
  <-> forall j, (i <= j <= i + n)%nat -> Pattern.matchAt true r input j = None.
Proof.
  revert i. induction n as [|n IH]; intros i; simpl.
  - destruct (Pattern.matchAt true r input i) as [e'|] eqn:E.
    + split; [discriminate|]. intros H.
      assert (X := H i ltac:(lia)). congruence.
    + split; [|reflexivity]. intros _ j Hj. replace j with i by lia. exact E.
  - destruct (Pattern.matchAt true r input i) as [e'|] eqn:E.
    + split; [discriminate|]. intros H.
      assert (X := H i ltac:(lia)). congruence.
    + rewrite IH. split.
      * intros H j Hj. destruct (Nat.eq_dec j i) as [-> | Hne]; [exact E|].
        apply H. lia.
      * intros H j Hj. apply H. lia.
Qed.

Lemma charAt_lt (input : string) (i : nat) (d : ascii) :
  Pattern.charAt input i = Some d -> (i < String.length input)%nat.
Proof.
  unfold Pattern.charAt. revert i.
  induction input as [|c input IH]; intros i; simpl; [discriminate|].
  destruct i as [|i]; [lia|]. intros H. apply IH in H. lia.
Qed.

Lemma literalAt_length (t input : string) (i : nat) :
  literalAt true t input i = true ->
  t = "" \/ (i + String.length t <= String.length input)%nat.
Proof.
  revert i. induction t as [|c t IH]; intros i; simpl; [now left|].
  destruct (Pattern.charAt input i) as [d|] eqn:Hd; [|discriminate].
  intros H. apply andb_true_iff in H as [_ H]. right.
  apply charAt_lt in Hd.
  destruct (IH (S i) H) as [-> | Hlen]; simpl; lia.
Qed.

(** X11. With a term set that is not empty and holds no empty term, the
    first match of the highlight pattern in a text is the leftmost one; its
    span is not empty, lies within the text, covers an occurrence of one
    of the terms, letter case aside, and no word character follows it. *)
Theorem highlight_span :
  forall (terms : JSSet.t) (re : RegExp) (input : string) (s e : nat),
    terms <> [] ->
    (forall t, In t terms -> t <> "") ->
    highlightRegex (Some terms) = Some re ->
    RegExp_exec re input = Some (s, e) ->
    (s < e <= String.length input)%nat
    /\ wordCharAt input e = false
    /\ (exists t,
           In t terms /\ e = (s + String.length t)%nat
           /\ literalAt true t input s = true)
    /\ (forall j, (j < s)%nat -> RegExp_matchAt re input j = None).
Proof.
  intros terms re input s e Hne Hterms Hre Hexec.
  rewrite (RegExp_exec_highlight terms re input Hre) in Hexec.
  apply scan_Some in Hexec as (_ & Hm & Hleft).
  rewrite matchAt_highlightPattern in Hm.
  apply firstSome_Some in Hm as (t & Ht & Hm).
  assert (Hin : In t terms) by (destruct terms; [congruence | exact Ht]).
  unfold termMatchAt in Hm.
  destruct (literalAt true t input s) eqn:Hl; [|discriminate].
  destruct (wordCharAt input (s + String.length t)) eqn:Hw; [discriminate|].
  simpl in Hm. injection Hm as <-.
  assert (Hlen : (0 < String.length t)%nat).
  { specialize (Hterms t Hin). destruct t; [congruence | simpl; lia]. }
  destruct (literalAt_length t input s Hl) as [-> | Hbound]; [simpl in Hlen; lia|].
  split; [lia|]. split; [exact Hw|]. split; [now exists t|].
  intros j Hj. rewrite (RegExp_matchAt_highlight terms re input j Hre).
  rewrite <- matchAt_highlightPattern. apply Hleft. lia.
Qed.

Lemma highlight_span_witness :
  (2 < 6 <= String.length "a Blur, blurred")%nat
  /\ wordCharAt "a Blur, blurred" 6 = false.
Proof.
  destruct (highlight_span ["blur"] {| source := "(?:blur)(?!\w)"; flags := "ig" |}
              "a Blur, blurred" 2 6) as (H1 & H2 & _).
  - discriminate.
  - intros t [<- | []]. discriminate.
  - reflexivity.
  - reflexivity.
  - split; [exact H1 | exact H2].
Defined.

Lemma alternatives_same (terms terms' : list string) :
  (forall t, In t terms <-> In t terms') ->
  forall t, In t (alternatives terms) <-> In t (alternatives terms').
Proof.
  intros H t. destruct terms as [|a l], terms' as [|a' l']; simpl.
  - reflexivity.
  - exfalso. apply (H a'). now left.
  - exfalso. apply (H a). now left.
  - apply H.
Qed.

(** X12. Whether the highlight pattern has a match at an index of a text,
    and whether it has a match in the text at all, depends on the terms of
    the set only, not on the order in which the set yields them. *)
Theorem highlight_order_independent :
  forall (terms terms' : JSSet.t) (re re' : RegExp) (input : string),
    (forall t, In t (JSSet.toList terms) <-> In t (JSSet.toList terms')) ->
    highlightRegex (Some terms) = Some re ->
    highlightRegex (Some terms') = Some re' ->
    (forall i, RegExp_matchAt re input i = None
               <-> RegExp_matchAt re' input i = None)
    /\ RegExp_test re input = RegExp_test re' input.
Proof.
  intros terms terms' re re' input Hsame Hre Hre'.
  assert (Hat : forall i, RegExp_matchAt re input i = None
                          <-> RegExp_matchAt re' input i = None).
  { intros i.
    rewrite (RegExp_matchAt_highlight terms re input i Hre).
    rewrite (RegExp_matchAt_highlight terms' re' input i Hre').
    rewrite !firstSome_None_iff.
    pose proof (alternatives_same terms terms' Hsame) as Halt.
    split; intros H t Ht; apply H, Halt, Ht. }
  split; [exact Hat|].
  assert (Hscan : RegExp_exec re input = None <-> RegExp_exec re' input = None).
  { rewrite (RegExp_exec_highlight terms re input Hre).
    rewrite (RegExp_exec_highlight terms' re' input Hre').
    rewrite !scan_None.
    assert (Hm : forall j,
               Pattern.matchAt true (highlightPattern terms) input j = None
               <-> Pattern.matchAt true (highlightPattern terms') input j = None).
    { intros j. specialize (Hat j).
      rewrite (RegExp_matchAt_highlight terms re input j Hre) in Hat.
      rewrite (RegExp_matchAt_highlight terms' re' input j Hre') in Hat.
      now rewrite !matchAt_highlightPattern. }
    split; intros H j Hj; apply Hm, H, Hj. }
  unfold RegExp_test.
  destruct (RegExp_exec re input) as [p|], (RegExp_exec re' input) as [p'|];
    try reflexivity.
  - assert (Some p = None) by (apply Hscan; reflexivity). discriminate.
  - assert (Some p' = None) by (apply Hscan; reflexivity). discriminate.
Qed.

Lemma highlight_order_independent_witness :
  RegExp_test {| source := "(?:bl|blur)(?!\w)"; flags := "ig" |} "a blur"
  = RegExp_test {| source := "(?:blur|bl)(?!\w)"; flags := "ig" |} "a blur".
Proof.
  apply (highlight_order_independent ["bl"; "blur"] ["blur"; "bl"]).
  - intros t. simpl. tauto.
  - reflexivity.
  - reflexivity.
Defined.

Lemma canonicalize_toLowerCaseChar (c : ascii) :
  Pattern.canonicalize true (JS.toLowerCaseChar c) = Pattern.canonicalize true c.
Proof. destruct c as [[] [] [] [] [] [] [] []]; reflexivity. Qed.

Lemma isWordChar_toLowerCaseChar (c : ascii) :
  Pattern.isWordChar (JS.toLowerCaseChar c) = Pattern.isWordChar c.
Proof. destruct c as [[] [] [] [] [] [] [] []]; reflexivity. Qed.

(** Two code units that are the same letter are equal under the flag [i],
    and both word characters or both not. *)
Lemma sameLetter_canonicalize (c d : ascii) :
  sameLetter c d = true ->
  Pattern.canonicalize true c = Pattern.canonicalize true d
  /\ Pattern.isWordChar c = Pattern.isWordChar d.
Proof.
  unfold sameLetter. rewrite !orb_true_iff.
  intros [[H | H] | H].
  - apply Ascii.eqb_eq in H. now subst.
  - apply lowerCaseOf_iff in H. subst d.
    now rewrite canonicalize_toLowerCaseChar, isWordChar_toLowerCaseChar.
  - apply lowerCaseOf_iff in H. subst c.
    now rewrite canonicalize_toLowerCaseChar, isWordChar_toLowerCaseChar.
Qed.

Lemma sameLetters_charAt (s t : string) (i : nat) :
  sameLetters s t = true ->
  match Pattern.charAt s i, Pattern.charAt t i with
  | Some c, Some d => sameLetter c d = true
  | None, None => True
  | _, _ => False
  end.
Proof.
  unfold Pattern.charAt. revert t i.
  induction s as [|c s IH]; intros [|d t] i; simpl; try discriminate; [auto|].
  intros H. apply andb_true_iff in H as [Hc Hs].
  destruct i as [|i]; [exact Hc | now apply IH].
Qed.

Lemma sameLetters_length (s t : string) :
  sameLetters s t = true -> String.length s = String.length t.
Proof.
  revert t. induction s as [|c s IH]; intros [|d t]; simpl; try discriminate; [auto|].
  intros H. apply andb_true_iff in H as [_ Hs]. now rewrite (IH t Hs).
Qed.

Lemma literalAt_sameLetters (t input input' : string) (i : nat) :
  sameLetters input input' = true ->
  literalAt true t input i = literalAt true t input' i.
Proof.
  intros Hsame. revert i. induction t as [|c t IH]; intros i; simpl; [reflexivity|].
  pose proof (sameLetters_charAt input input' i Hsame) as H.
  destruct (Pattern.charAt input i) as [d|], (Pattern.charAt input' i) as [d'|];
    try contradiction; [|reflexivity].
  apply sameLetter_canonicalize in H as [H _].
  unfold Pattern.charMatches. now rewrite H, IH.
Qed.

Lemma wordCharAt_sameLetters (input input' : string) (i : nat) :
  sameLetters input input' = true ->
  wordCharAt input i = wordCharAt input' i.
Proof.
  intros Hsame. unfold wordCharAt.
  pose proof (sameLetters_charAt input input' i Hsame) as H.
  destruct (Pattern.charAt input i) as [d|], (Pattern.charAt input' i) as [d'|];
    try contradiction; [|reflexivity].
  now apply sameLetter_canonicalize in H as [_ H].
Qed.

Lemma firstSome_ext {A B : Type} (f g : A -> option B) (l : list A) :
  (forall x, f x = g x) -> firstSome f l = firstSome g l.
Proof.
  intros H. induction l as [|a l IH]; simpl; [reflexivity|].
  now rewrite H, IH.
Qed.

Lemma scan_ext (r : Pattern.regex) (input input' : string) (n i : nat) :
  (forall j, Pattern.matchAt true r input j = Pattern.matchAt true r input' j) ->
  Pattern.scan true r input i n = Pattern.scan true r input' i n.
Proof.
  intros H. revert i. induction n as [|n IH]; intros i; simpl; rewrite H.
  - reflexivity.
  - now rewrite IH.
Qed.

(** X13. The highlight pattern ignores the letter case of the text: in
    two texts that differ only in the case of letters, code unit by code
    unit, it has the same matches, with the same spans. *)
Theorem highlight_ignores_case :
  forall (terms : JSSet.t) (re : RegExp) (input input' : string),
    highlightRegex (Some terms) = Some re ->
    sameLetters input input' = true ->
    (forall i, RegExp_matchAt re input i = RegExp_matchAt re input' i)
    /\ RegExp_exec re input = RegExp_exec re input'.
Proof.
  intros terms re input input' Hre Hsame.
  assert (Hat : forall i,
             firstSome (fun t => termMatchAt t input i) (alternatives terms)
             = firstSome (fun t => termMatchAt t input' i) (alternatives terms)).
  { intros i. apply firstSome_ext. intros t. unfold termMatchAt.
    now rewrite (literalAt_sameLetters t input input' i Hsame),
                (wordCharAt_sameLetters input input' _ Hsame). }
  split.
  - intros i. rewrite !(RegExp_matchAt_highlight terms re _ i Hre). apply Hat.
  - rewrite !(RegExp_exec_highlight terms re _ Hre).
    rewrite (sameLetters_length input input' Hsame).
    apply scan_ext. intros j. rewrite !matchAt_highlightPattern. apply Hat.
Qed.

Lemma highlight_ignores_case_witness :
  RegExp_exec {| source := "(?:blur)(?!\w)"; flags := "ig" |} "Gaussian BLUR."
  = RegExp_exec {| source := "(?:blur)(?!\w)"; flags := "ig" |} "gaussian Blur.".
Proof.
  apply (highlight_ignores_case ["blur"]); reflexivity.
Defined.
